(** * spam_script.py: concurrent prompt dispatch and result logging

    A shallow embedding of [load script/spam_script.py].  The module
    [Executor] embeds the pure part of [send_prompt] (how a reply of the
    endpoint becomes a result dictionary); the module [Dispatch] embeds
    [worker] and [main] as an interleaving state machine over the queue,
    the file lock and the output file. *)

From Stdlib Require Import Ascii String QArith Qround.
From stdpp Require Import list strings pretty.

Open Scope string_scope.
Open Scope nat_scope.

Set Warnings "-register-all".

(** ** Python values that reach [json.dumps] *)

(** Floats are read as exact rationals; a dictionary keeps insertion order
    and is held as an association list. *)
Inductive value : Type :=
  | VNone
  | VBool (b : bool)
  | VInt (z : Z)
  | VFloat (q : Q)
  | VStr (s : string)
  | VList (l : list value)
  | VDict (kv : list (string * value)).

(** [d.get(key, default)]: only a dictionary has the method, any other
    value raises [AttributeError], which is [None] here. *)
Fixpoint assoc_get (kv : list (string * value)) (key : string) (default : value) : value :=
  match kv with
  | [] => default
  | (k, v) :: rest => if String.eqb k key then v else assoc_get rest key default
  end.

Definition py_get (data : value) (key : string) (default : value) : option value :=
  match data with
  | VDict kv => Some (assoc_get kv key default)
  | _ => None
  end.

(** [round(x, 3)] on an exact rational, ties to even. *)
Definition round3 (x : Q) : Q :=
  let m := (x * 1000)%Q in
  let f := Qfloor m in
  let r := (m - inject_Z f)%Q in
  let n := match Qcompare r (1 # 2) with
           | Lt => f
           | Gt => (f + 1)%Z
           | Eq => if Z.even f then f else (f + 1)%Z
           end in
  Qmake n 1000.

(** ** Timestamps *)

Record datetime : Type := mk_datetime {
  year : nat; month : nat; day : nat;
  hour : nat; minute : nat; second : nat
}.

Fixpoint zeros (k : nat) : string :=
  match k with
  | O => ""
  | S k' => "0" ++ zeros k'
  end.

Definition zero_pad (width n : nat) : string :=
  let s := pretty n in zeros (width - String.length s) ++ s.

(** [dt.strftime("%Y-%m-%d %H:%M:%S")] *)
Definition strftime (dt : datetime) : string :=
  zero_pad 4 (year dt) ++ "-" ++ zero_pad 2 (month dt) ++ "-" ++ zero_pad 2 (day dt)
  ++ " " ++ zero_pad 2 (hour dt) ++ ":" ++ zero_pad 2 (minute dt) ++ ":" ++ zero_pad 2 (second dt).

Module Executor.

(** What [requests.post(ENDPOINT, json=payload, timeout=300)] does: it
    returns a response, raises [requests.exceptions.Timeout], or raises
    some other exception [e] with [str(e) = msg].  [body] is what
    [resp.json()] returns, [None] when it raises. *)
Inductive reply : Type :=
  | Response (status_code : Z) (text : string) (body : option value)
  | RaisedTimeout
  | RaisedOther (msg : string).

(** One call of [send_prompt] as seen from outside: the clock readings
    around the call and the reply. *)
Record call : Type := mk_call {
  start_dt : datetime;     (* datetime.utcnow() before the post *)
  start_time : Q;          (* time.time() before the post *)
  end_dt : datetime;       (* datetime.utcnow() after the post *)
  end_time : Q;            (* time.time() after the post *)
  answer : reply
}.

(** The dictionary [result] of [send_prompt], with its six fixed keys. *)
Record result : Type := mk_result {
  prompt : string;
  start_time_utc : string;
  end_time_utc : string;
  time_seconds : value;
  output_tokens : value;
  response : value
}.

Definition elapsed (c : call) : Q := (end_time c - start_time c)%Q.

(** The record of the three error branches and of the timeout branch:
    both [time_seconds] and [output_tokens] carry the same sentinel. *)
Definition sentinel_result (p : string) (c : call) (sentinel : string) (resp : value) : result :=
  {| prompt := p;
     start_time_utc := strftime (start_dt c);
     end_time_utc := strftime (end_dt c);
     time_seconds := VStr sentinel;
     output_tokens := VStr sentinel;
     response := resp |}.

(** Lines 17-78 of [send_prompt]: the value of [result] when the
    try-statement is left. *)
Definition send_prompt_result (p : string) (c : call) : result :=
  match answer c with
  | Response status_code text body =>
      if negb (status_code =? 200)%Z then
        sentinel_result p c "ERROR" (VStr text)
      else
        match body with
        | Some data =>
            match py_get data "eval_count" (VStr "") with
            | Some tokens =>
                {| prompt := p;
                   start_time_utc := strftime (start_dt c);
                   end_time_utc := strftime (end_dt c);
                   time_seconds := VFloat (round3 (elapsed c));
                   output_tokens := tokens;
                   response := data |}
            | None => sentinel_result p c "ERROR" (VStr text)
            end
        | None => sentinel_result p c "ERROR" (VStr text)
        end
  | RaisedTimeout => sentinel_result p c "TIMEOUT" VNone
  | RaisedOther msg => sentinel_result p c "ERROR" (VStr msg)
  end.

(** The five outcome kinds of the specification.  The script stores no
    such field; [classify] names the branch of [send_prompt] a reply
    takes, in the order the branches are tested. *)
Inductive outcome : Type :=
  | Success | HTTPError | ParseError | Timeout | TransportError.

Definition classify (r : reply) : outcome :=
  match r with
  | Response status_code _ body =>
      if negb (status_code =? 200)%Z then HTTPError
      else match body with
           | Some (VDict _) => Success
           | _ => ParseError
           end
  | RaisedTimeout => Timeout
  | RaisedOther _ => TransportError
  end.

(** The text of the response, for the replies that have one. *)
Definition reply_text (r : reply) : string :=
  match r with
  | Response _ text _ => text
  | _ => ""
  end.

End Executor.

(** ** Reading the prompt file *)

(** A string is the UTF-8 text of a Python [str].  [str.strip] removes the
    characters that [str.isspace] accepts: U+0009-U+000D, U+001C-U+0020,
    U+0085, U+00A0, U+1680, U+2000-U+200A, U+2028, U+2029, U+202F, U+205F
    and U+3000.  In UTF-8 these take one, two or three bytes. *)

(** The whitespace of one byte: tab to carriage return, the four
    separators 28-31 and the space. *)
Definition is_space (a : ascii) : bool :=
  let n := nat_of_ascii a in
  ((9 <=? n) && (n <=? 13)) || ((28 <=? n) && (n <=? 31)) || (n =? 32).

Definition byte_is (a : ascii) (n : nat) : bool := nat_of_ascii a =? n.
Definition byte_in (a : ascii) (lo hi : nat) : bool :=
  (lo <=? nat_of_ascii a) && (nat_of_ascii a <=? hi).

(** The whitespace of two bytes: U+0085 (C2 85) and U+00A0 (C2 A0). *)
Definition space2 (a b : ascii) : bool :=
  byte_is a 194 && (byte_is b 133 || byte_is b 160).

(** The whitespace of three bytes: U+1680 (E1 9A 80), U+2000-U+200A
    (E2 80 80 to E2 80 8A), U+2028, U+2029 (E2 80 A8, E2 80 A9), U+202F
    (E2 80 AF), U+205F (E2 81 9F) and U+3000 (E3 80 80). *)
Definition space3 (a b c : ascii) : bool :=
  (byte_is a 225 && byte_is b 154 && byte_is c 128)
  || (byte_is a 226 && byte_is b 128
      && (byte_in c 128 138 || byte_in c 168 169 || byte_is c 175))
  || (byte_is a 226 && byte_is b 129 && byte_is c 159)
  || (byte_is a 227 && byte_is b 128 && byte_is c 128).

(** The bytes of one whitespace character. *)
Definition ws (t : string) : bool :=
  match t with
  | String a EmptyString => is_space a
  | String a (String b EmptyString) => space2 a b
  | String a (String b (String c EmptyString)) => space3 a b c
  | _ => false
  end.

(** The text cut into units: a whitespace character is one unit, any
    other byte is a unit by itself (a lead byte of UTF-8 is never a
    continuation byte, so a whitespace character is found only where a
    character starts). *)
Fixpoint chars (s : string) : list string :=
  match s with
  | EmptyString => []
  | String a s1 =>
      if is_space a then String a EmptyString :: chars s1
      else
        match s1 with
        | String b s2 =>
            if space2 a b then String a (String b EmptyString) :: chars s2
            else
              match s2 with
              | String c s3 =>
                  if space3 a b c
                  then String a (String b (String c EmptyString)) :: chars s3
                  else String a EmptyString :: chars s1
              | EmptyString => String a EmptyString :: chars s1
              end
        | EmptyString => String a EmptyString :: chars s1
        end
  end.

(** The units put together again. *)
Definition unchars (l : list string) : string := foldr String.append EmptyString l.

(** Whitespace taken off the start, and off the end, of a list of units. *)
Fixpoint ltrim (l : list string) : list string :=
  match l with
  | [] => []
  | t :: l' => if ws t then ltrim l' else l
  end.

Fixpoint rtrim (l : list string) : list string :=
  match l with
  | [] => []
  | t :: l' =>
      match rtrim l' with
      | [] => if ws t then [] else [t]
      | r => t :: r
      end
  end.

(** [s.lstrip()] and [s.rstrip()] *)
Definition lstrip (s : string) : string := unchars (ltrim (chars s)).
Definition rstrip (s : string) : string := unchars (rtrim (chars s)).

(** [line.strip()] *)
Definition strip (s : string) : string := lstrip (rstrip s).

(** A non-empty string is true. *)
Definition truthy (s : string) : bool :=
  match s with
  | EmptyString => false
  | _ => true
  end.

(** [[line.strip() for line in f if line.strip()]] *)
Definition load_prompts (lines : list string) : list string :=
  filter (fun l => truthy l = true) (strip <$> lines).

Definition OUTFILE : string := "inference_results_128_default_hpa_v3.json".
Definition MAX_THREADS : nat := 128.

(** ** [worker] and [main] as an interleaving state machine *)

Module Dispatch.
Import Executor.

(** What the run is given: the lines of [PROMPT_FILE] as UTF-8 text
    ([None] when the file cannot be opened) and the value of
    [MAX_THREADS]. *)
Record config : Type := mk_config {
  prompt_file : option (list string);
  max_threads : nat
}.

(** Where the main thread stands in [main]. *)
Inductive main_pc : Type :=
  | MOpen                       (* line 94: about to read PROMPT_FILE *)
  | MClear                      (* line 101: about to clear OUTFILE *)
  | MStart (k : nat)            (* lines 104-107: k threads still to start *)
  | MPut (rest : list string)   (* lines 110-111: prompts still to enqueue *)
  | MSignal (k : nat)           (* lines 114-115: k markers still to enqueue *)
  | MJoin                       (* line 118: blocked in prompt_q.join() *)
  | MPrint                      (* line 120 *)
  | MReturned                   (* main() has returned *)
  | MRaised.                    (* main() left by an uncaught exception *)

(** Where a worker thread stands in [worker] and in the [send_prompt] it
    calls. *)
Inductive wstate : Type :=
  | WGet                        (* line 86: blocked in prompt_q.get() *)
  | WPost (p : string)          (* line 26: inside requests.post *)
  | WAcquire (r : result)       (* line 80: waiting for file_lock *)
  | WWrite (r : result)         (* lines 81-82: holds file_lock *)
  | WTaskDone                   (* line 91 *)
  | WStop                       (* line 88: got None, before task_done *)
  | WBreak                      (* line 89 *)
  | WFinished                   (* worker() has returned *)
  | WDied.                      (* worker() left by an uncaught exception *)

Record state : Type := mk_state {
  pc : main_pc;
  prompts : list string;
  threads : list wstate;
  queue : list (option string);       (* prompt_q, oldest first *)
  unfinished_tasks : nat;             (* prompt_q.unfinished_tasks *)
  file_lock : option nat;             (* the thread that holds the lock *)
  outfile : list result;              (* OUTFILE, one record per line *)
  stdout : list string
}.

Definition set_pc (x : main_pc) (s : state) : state :=
  mk_state x (prompts s) (threads s) (queue s) (unfinished_tasks s) (file_lock s) (outfile s) (stdout s).
Definition set_prompts (x : list string) (s : state) : state :=
  mk_state (pc s) x (threads s) (queue s) (unfinished_tasks s) (file_lock s) (outfile s) (stdout s).
Definition set_threads (x : list wstate) (s : state) : state :=
  mk_state (pc s) (prompts s) x (queue s) (unfinished_tasks s) (file_lock s) (outfile s) (stdout s).
Definition set_queue (x : list (option string)) (s : state) : state :=
  mk_state (pc s) (prompts s) (threads s) x (unfinished_tasks s) (file_lock s) (outfile s) (stdout s).
Definition set_unfinished (x : nat) (s : state) : state :=
  mk_state (pc s) (prompts s) (threads s) (queue s) x (file_lock s) (outfile s) (stdout s).
Definition set_lock (x : option nat) (s : state) : state :=
  mk_state (pc s) (prompts s) (threads s) (queue s) (unfinished_tasks s) x (outfile s) (stdout s).
Definition set_outfile (x : list result) (s : state) : state :=
  mk_state (pc s) (prompts s) (threads s) (queue s) (unfinished_tasks s) (file_lock s) x (stdout s).
Definition set_stdout (x : list string) (s : state) : state :=
  mk_state (pc s) (prompts s) (threads s) (queue s) (unfinished_tasks s) (file_lock s) (outfile s) x.

Definition set_thread (i : nat) (w : wstate) (s : state) : state :=
  set_threads (<[i:=w]> (threads s)) s.

(** The process starts with an empty queue, no thread and whatever
    [OUTFILE] held before. *)
Definition init (log0 : list result) : state :=
  mk_state MOpen [] [] [] 0 None log0 [].

(** [prompt_q.put(x)] *)
Definition put (x : option string) (s : state) : state :=
  set_unfinished (S (unfinished_tasks s)) (set_queue (queue s ++ [x]) s).

(** [prompt_q.task_done()] by thread [i], which goes on at [next]; the
    call raises [ValueError] when no task is unfinished. *)
Definition task_done (i : nat) (next : wstate) (s : state) : state :=
  match unfinished_tasks s with
  | O => set_thread i WDied s
  | S u => set_unfinished u (set_thread i next s)
  end.

Definition completed_message (n : nat) : string :=
  "Completed " ++ pretty n ++ " prompts. Results written to " ++ OUTFILE ++ ".".

(** One step of the main thread; [None] when it is blocked or gone. *)
Definition main_step (cfg : config) (s : state) : option state :=
  match pc s with
  | MOpen =>
      match prompt_file cfg with
      | None => Some (set_pc MRaised s)
      | Some lines => Some (set_pc MClear (set_prompts (load_prompts lines) s))
      end
  | MClear =>
      Some (set_pc (MStart (Nat.min (max_threads cfg) (length (prompts s))))
                   (set_outfile [] s))
  | MStart (S k) => Some (set_pc (MStart k) (set_threads (threads s ++ [WGet]) s))
  | MStart O => Some (set_pc (MPut (prompts s)) s)
  | MPut (p :: rest) => Some (set_pc (MPut rest) (put (Some p) s))
  | MPut [] => Some (set_pc (MSignal (length (threads s))) s)
  | MSignal (S k) => Some (set_pc (MSignal k) (put None s))
  | MSignal O => Some (set_pc MJoin s)
  | MJoin =>
      match unfinished_tasks s with
      | O => Some (set_pc MPrint s)
      | S _ => None
      end
  | MPrint =>
      Some (set_pc MReturned
                   (set_stdout (stdout s ++ [completed_message (length (prompts s))]) s))
  | MReturned => None
  | MRaised => None
  end.

(** One step of worker [i] that needs nothing from outside. *)
Definition worker_step (i : nat) (s : state) : option state :=
  match threads s !! i with
  | Some WGet =>
      match queue s with
      | [] => None
      | Some p :: q => Some (set_thread i (WPost p) (set_queue q s))
      | None :: q => Some (set_thread i WStop (set_queue q s))
      end
  | Some (WAcquire r) =>
      match file_lock s with
      | None => Some (set_lock (Some i) (set_thread i (WWrite r) s))
      | Some _ => None
      end
  | Some WTaskDone => Some (task_done i WGet s)
  | Some WStop => Some (task_done i WBreak s)
  | Some WBreak => Some (set_thread i WFinished s)
  | _ => None
  end.

(** [requests.post] of worker [i] comes back with the call [c]. *)
Definition post_step (i : nat) (c : call) (s : state) : option state :=
  match threads s !! i with
  | Some (WPost p) => Some (set_thread i (WAcquire (send_prompt_result p c)) s)
  | _ => None
  end.

(** Worker [i] opens [OUTFILE] for appending and writes its line; when
    [ok] is false the open or the write raises.  Leaving the
    with-statement releases the lock either way. *)
Definition write_step (i : nat) (ok : bool) (s : state) : option state :=
  match threads s !! i with
  | Some (WWrite r) =>
      if ok then
        Some (set_lock None (set_thread i WTaskDone (set_outfile (outfile s ++ [r]) s)))
      else
        Some (set_lock None (set_thread i WDied s))
  | _ => None
  end.

Inductive event : Type :=
  | EMain
  | EWorker (i : nat)
  | EPost (i : nat) (c : call)
  | EWrite (i : nat) (ok : bool).

Definition step (cfg : config) (e : event) (s : state) : option state :=
  match e with
  | EMain => main_step cfg s
  | EWorker i => worker_step i s
  | EPost i c => post_step i c s
  | EWrite i ok => write_step i ok s
  end.

(** Running a schedule; [None] when one of its events is not enabled. *)
Fixpoint exec (cfg : config) (tr : list event) (s : state) : option state :=
  match tr with
  | [] => Some s
  | e :: tr' =>
      match step cfg e s with
      | Some s' => exec cfg tr' s'
      | None => None
      end
  end.

Definition reachable (cfg : config) (log0 : list result) (s : state) : Prop :=
  exists tr, exec cfg tr (init log0) = Some s.

(** The interpreter waits for every thread before the process exits; the
    status is 1 when [main] was left by an exception. *)
Definition terminated (w : wstate) : bool :=
  match w with
  | WFinished | WDied => true
  | _ => false
  end.

Definition exit_code (s : state) : option nat :=
  if forallb terminated (threads s) then
    match pc s with
    | MReturned => Some 0
    | MRaised => Some 1
    | _ => None
    end
  else None.



(** How often a schedule opens [OUTFILE] for writing (line 101). *)
Definition clear_of (e : event) (s : state) : nat :=
  match e, pc s with
  | EMain, MClear => 1
  | _, _ => 0
  end.

Fixpoint clears (cfg : config) (tr : list event) (s : state) : nat :=
  match tr with
  | [] => 0
  | e :: tr' =>
      match step cfg e s with
      | Some s' => clear_of e s + clears cfg tr' s'
      | None => 0
      end
  end.

(** The loop of lines 104-107 has been left. *)
Definition pool_started (x : main_pc) : bool :=
  match x with
  | MOpen | MClear | MStart _ | MRaised => false
  | _ => true
  end.

(** [prompt_q.join()] has returned. *)
Definition joined (x : main_pc) : bool :=
  match x with
  | MPrint | MReturned => true
  | _ => false
  end.


(** Line 101 has been run. *)
Definition cleared (x : main_pc) : bool :=
  match x with
  | MOpen | MClear | MRaised => false
  | _ => true
  end.

(** *** What the invariants count *)

(** A thread that has taken an entry off the queue and has not (or will
    never have) called [task_done] for it. *)
Definition pending (w : wstate) : nat :=
  match w with
  | WPost _ | WAcquire _ | WWrite _ | WTaskDone | WStop | WDied => 1
  | _ => 0
  end.

(** A thread that has taken a marker off the queue. *)
Definition consumed (w : wstate) : nat :=
  match w with
  | WStop | WBreak | WFinished => 1
  | _ => 0
  end.


Definition died (w : wstate) : nat :=
  match w with
  | WDied => 1
  | _ => 0
  end.

(** The prompt a thread is working on, not yet in the file. *)
Definition held (w : wstate) : list string :=
  match w with
  | WPost p => [p]
  | WAcquire r | WWrite r => [prompt r]
  | _ => []
  end.

Definition tsum (f : wstate -> nat) (l : list wstate) : nat := sum_list_with f l.

Definition is_marker (x : option string) : nat :=
  match x with
  | None => 1
  | Some _ => 0
  end.

(** The markers and the prompts that wait in the queue. *)
Definition nones (q : list (option string)) : nat := sum_list_with is_marker q.
Definition somes (q : list (option string)) : list string := omap id q.

(** What the main thread has still to do, read off its position: the
    prompts to enqueue, the markers to enqueue, the threads to start. *)
Definition todo (P : list string) (x : main_pc) : list string :=
  match x with
  | MClear | MStart _ => P
  | MPut rest => rest
  | _ => []
  end.

Definition mtodo (W : nat) (x : main_pc) : nat :=
  match x with
  | MClear | MStart _ | MPut _ => W
  | MSignal k => k
  | _ => 0
  end.

Definition stodo (W : nat) (x : main_pc) : nat :=
  match x with
  | MClear => W
  | MStart k => k
  | _ => 0
  end.

(** The invariant of a run once the prompts [P] are loaded; [W] is the
    size of the pool. *)
Record inv (P : list string) (W : nat) (log0 : list result) (s : state) : Prop := mk_inv {
  inv_prompts : prompts s = P;
  inv_pc : pc s <> MOpen /\ pc s <> MRaised;
  inv_unfinished : unfinished_tasks s = length (queue s) + tsum pending (threads s);
  inv_lock : forall i, file_lock s = Some i <-> exists r, threads s !! i = Some (WWrite r);
  inv_threads : length (threads s) + stodo W (pc s) = W;
  inv_markers : nones (queue s) + tsum consumed (threads s) + mtodo W (pc s) = W;
  inv_clear : pc s = MClear -> outfile s = log0 /\ queue s = [];
  inv_items : pc s <> MClear ->
    exists lost, length lost = tsum died (threads s) /\
      (prompt <$> outfile s) ++ todo P (pc s) ++ somes (queue s)
        ++ (threads s ≫= held) ++ lost ≡ₚ P;
  inv_joined : pc s = MPrint \/ pc s = MReturned -> unfinished_tasks s = 0
}.

(** Every state a run can be in. *)
Definition run_inv (cfg : config) (log0 : list result) (s : state) : Prop :=
  s = init log0
  \/ (prompt_file cfg = None /\ s = set_pc MRaised (init log0))
  \/ (exists lines, prompt_file cfg = Some lines /\
        inv (load_prompts lines)
            (Nat.min (max_threads cfg) (length (load_prompts lines))) log0 s).

End Dispatch.

(** ** Sample runs *)

Module Samples.
Import Executor Dispatch.

Definition noon : datetime := mk_datetime 2025 3 7 12 0 0.
Definition noon_later : datetime := mk_datetime 2025 3 7 12 5 0.

(** A call that came back after a second and a half with status 500. *)
Definition call_500 : call :=
  mk_call noon (10 # 1) noon (23 # 2) (Response 500 "Internal Server Error" None).

(** A call that came back with status 200 and a body that is no JSON. *)
Definition call_garbled : call :=
  mk_call noon (10 # 1) noon (21 # 2) (Response 200 "<html>" None).

(** A call given up after the five minutes of the timeout. *)
Definition call_timeout : call :=
  mk_call noon (10 # 1) noon_later (310 # 1) RaisedTimeout.

(** A call answered with status 200 and a JSON object. *)
Definition call_ok : call :=
  mk_call noon (10 # 1) noon (45 # 4)
    (Response 200 "{...}" (Some (VDict [("response", VStr "Paris"); ("eval_count", VInt 7)]))).

(** One prompt, the pool of the script. *)
Definition cfg_one : config := mk_config (Some ["hello"]) MAX_THREADS.

(** The main thread up to [join], for one prompt and one thread. *)
Definition main_to_join_1 : list event := replicate 8 EMain.

(** The worker gets the prompt, posts it, writes the record and marks the
    prompt done. *)
Definition work_item (i : nat) (c : call) : list event :=
  [EWorker i; EPost i c; EWorker i; EWrite i true; EWorker i].

(** The prompt is done and the marker still in the queue. *)
Definition run_marker_left : list event := (main_to_join_1 ++ work_item 0 call_ok)%list.

(** The worker takes the marker and marks it done; the main thread leaves
    [join] before the worker breaks out of its loop. *)
Definition run_join_early : list event :=
  (run_marker_left ++ [EWorker 0; EWorker 0; EMain])%list.

(** A schedule for any prompts [P] and any pool of [W] threads: the main
    thread runs up to [join], thread 0 serves the prompts one after the
    other, every thread takes its marker and leaves, and the main thread
    leaves [join] and prints. *)
Definition main_to_join (N W : nat) : list event := replicate (N + 2 * W + 5) EMain.

Definition serve_all (c : call) (items : list string) : list event :=
  items ≫= (fun _ => work_item 0 c).

Definition take_marker (i : nat) : list event := [EWorker i; EWorker i; EWorker i].

Definition stop_all (first m : nat) : list event := seq first m ≫= take_marker.

Definition one_by_one (c : call) (P : list string) (W : nat) : list event :=
  (main_to_join (length P) W ++ serve_all c P ++ stop_all 0 W ++ [EMain; EMain])%list.

(** The open or the write of the one record raises. *)
Definition run_write_fails : list event :=
  (main_to_join_1 ++ [EWorker 0; EPost 0 call_ok; EWorker 0; EWrite 0 false])%list.

(** What an earlier run left in [OUTFILE]. *)
Definition old_log : list result := [send_prompt_result "earlier" call_ok].

(** No prompt file. *)
Definition cfg_missing : config := mk_config None MAX_THREADS.

(** A prompt file with blank lines only. *)
Definition cfg_blank : config := mk_config (Some [""; "   "]) MAX_THREADS.

(** The whole of [main] when there is no prompt. *)
Definition run_blank : list event := replicate 7 EMain.

(** The state in which the run over [cfg_blank] ends. *)
Definition final_blank : state :=
  mk_state MReturned [] [] [] 0 None [] [completed_message 0].

(** The states of the run over a prompt file without a prompt: the state
    after [k] steps of the main thread. *)
Definition blank_run_state (log0 : list result) (k : nat) : state :=
  match k with
  | 0 => init log0
  | 1 => mk_state MClear [] [] [] 0 None log0 []
  | 2 => mk_state (MStart 0) [] [] [] 0 None [] []
  | 3 => mk_state (MPut []) [] [] [] 0 None [] []
  | 4 => mk_state (MSignal 0) [] [] [] 0 None [] []
  | 5 => mk_state MJoin [] [] [] 0 None [] []
  | 6 => mk_state MPrint [] [] [] 0 None [] []
  | _ => mk_state MReturned [] [] [] 0 None [] [completed_message 0]
  end.

(** Two prompts and a blank line between them, two threads. *)
Definition lines_two : list string := ["a"; ""; "b"].
Definition cfg_two : config := mk_config (Some lines_two) 2.

(** A whole run of two threads: thread 1 is the first to write. *)
Definition run_two : list event :=
  (replicate 11 EMain
   ++ [EWorker 0; EWorker 1; EPost 1 call_ok; EPost 0 call_500;
       EWorker 1; EWrite 1 true; EWorker 0; EWrite 0 true;
       EWorker 1; EWorker 0; EWorker 0; EWorker 1; EWorker 0; EWorker 1;
       EMain; EWorker 0; EMain; EWorker 1])%list.

(** The state a schedule ends in (the first state when it cannot run). *)
Definition state_after (cfg : config) (tr : list event) (log0 : list result) : state :=
  default (init log0) (exec cfg tr (init log0)).

Definition final_two : state := Eval vm_compute in state_after cfg_two run_two old_log.
Definition final_two_again : state :=
  Eval vm_compute in state_after cfg_two run_two (outfile final_two).

(** The one worker holds the lock and is about to write. *)
Definition run_to_write : list event :=
  (main_to_join_1 ++ [EWorker 0; EPost 0 call_ok; EWorker 0])%list.
Definition writing_one : state := Eval vm_compute in state_after cfg_one run_to_write [].

Definition joined_one : state := Eval vm_compute in state_after cfg_one run_join_early [].

End Samples.

(** ** What the further properties speak of *)

(** Only whitespace, as [str.isspace] sees it (the empty string included). *)
Definition all_space (s : string) : bool := forallb ws (chars s).

(** U+00A0, the no-break space, and U+2003, the em space. *)
Definition nbsp : string := String (ascii_of_nat 194) (String (ascii_of_nat 160) EmptyString).
Definition emsp : string :=
  String (ascii_of_nat 226) (String (ascii_of_nat 128) (String (ascii_of_nat 131) EmptyString)).

(** The keys of a dictionary. *)
Definition keys (kv : list (string * value)) : list string := fst <$> kv.

Module Progress.
Import Executor Dispatch.

(** The steps a thread has still to take for the entry it holds. *)
Definition thread_rem (w : wstate) : nat :=
  match w with
  | WGet => 0
  | WPost _ => 4
  | WAcquire _ => 3
  | WWrite _ => 2
  | WTaskDone => 1
  | WStop => 2
  | WBreak => 1
  | WFinished => 0
  | WDied => 0
  end.

(** The steps an entry of the queue will cost the thread that takes it:
    five for a prompt (get, post, lock, write, task_done), three for a
    marker (get, task_done, break). *)
Definition entry_rem (x : option string) : nat :=
  match x with
  | Some _ => 5
  | None => 3
  end.

(** The steps the main thread has still to take, with those of the
    entries it will yet put on the queue. *)
Definition main_rem (cfg : config) (s : state) : nat :=
  let n := length (threads s) in
  let from_put (todo_items : nat) (pool : nat) := 6 * todo_items + 4 * pool + 4 in
  let from_start (k : nat) (items : nat) := k + 1 + from_put items (n + k) in
  match pc s with
  | MOpen =>
      match prompt_file cfg with
      | None => 1
      | Some lines =>
          let items := length (load_prompts lines) in
          2 + from_start (Nat.min (max_threads cfg) items) items
      end
  | MClear =>
      let items := length (prompts s) in
      1 + from_start (Nat.min (max_threads cfg) items) items
  | MStart k => from_start k (length (prompts s))
  | MPut rest => from_put (length rest) n
  | MSignal k => 4 * k + 3
  | MJoin => 2
  | MPrint => 1
  | MReturned => 0
  | MRaised => 0
  end.

(** An upper bound of the number of steps that are left in a state. *)
Definition steps_left (cfg : config) (s : state) : nat :=
  main_rem cfg s + sum_list_with entry_rem (queue s) + tsum thread_rem (threads s).

(** No schedule is given a write that fails. *)
Definition writes_succeed (tr : list event) : Prop :=
  forall i, EWrite i false ∉ tr.

(** The queue holds prompts first and markers after them, and as long as
    a prompt waits in it no thread has taken a marker. *)
Definition fifo (s : state) : Prop :=
  exists xs m, queue s = ((Some <$> xs) ++ replicate m None)%list
    /\ (xs <> [] -> tsum consumed (threads s) = 0).

(** Two prompts and one thread. *)
Definition cfg_single : config := mk_config (Some Samples.lines_two) 1.
Definition run_single : list event := Samples.one_by_one Samples.call_ok ["a"; "b"] 1.
Definition final_single : state :=
  Eval vm_compute in Samples.state_after cfg_single run_single Samples.old_log.

End Progress.

(** The widths of the fields of a time stamp. *)
Definition width_ok (width bound : nat) : bool :=
  forallb (fun n => String.length (zero_pad width n) =? width) (seq 0 bound).

Definition well_formed (dt : datetime) : Prop :=
  1000 <= year dt < 100 * 100 /\ month dt < 100 /\ day dt < 100
  /\ hour dt < 100 /\ minute dt < 100 /\ second dt < 100.

(** * Properties *)

Example strip_ex : load_prompts ["  a b " ; "" ; "   " ; "c"] = ["a b"; "c"].
Proof. reflexivity. Qed.

Module ExecutorFacts.
Import Executor Samples.

Example strftime_noon : strftime noon = "2025-03-07 12:00:00".
Proof. reflexivity. Qed.

Example send_prompt_result_500 :
  send_prompt_result "hi" call_500 =
    mk_result "hi" "2025-03-07 12:00:00" "2025-03-07 12:00:00"
              (VStr "ERROR") (VStr "ERROR") (VStr "Internal Server Error").
Proof. reflexivity. Qed.

(** The three sentinel branches of the response of a reply that is no
    success and no timeout. *)
Lemma error_branches p c :
  classify (answer c) = HTTPError \/ classify (answer c) = ParseError ->
  send_prompt_result p c = sentinel_result p c "ERROR" (VStr (reply_text (answer c))).
Proof.
  unfold classify, send_prompt_result.
  destruct (answer c) as [code text body| |msg]; simpl.
  - destruct (negb (code =? 200)%Z); [done|].
    destruct body as [[]|]; simpl; try done. intros [|]; done.
  - intros [|]; done.
  - intros [|]; done.
Qed.

(** C2, as the code has it: a reply with a status other than 200, or with
    status 200 and a body that is not a JSON object, gives a record whose
    [time_seconds] is the string "ERROR", with "ERROR" in [output_tokens]
    and the raw text of the response in [response]. *)
Theorem error_record_has_sentinel_time p c :
  classify (answer c) = HTTPError \/ classify (answer c) = ParseError ->
  time_seconds (send_prompt_result p c) = VStr "ERROR"
  /\ output_tokens (send_prompt_result p c) = VStr "ERROR"
  /\ response (send_prompt_result p c) = VStr (reply_text (answer c)).
Proof. intros H. by rewrite (error_branches p c H). Qed.

Lemma error_record_has_sentinel_time_witness :
  time_seconds (send_prompt_result "hi" call_garbled) = VStr "ERROR"
  /\ output_tokens (send_prompt_result "hi" call_garbled) = VStr "ERROR"
  /\ response (send_prompt_result "hi" call_garbled) = VStr (reply_text (answer call_garbled)).
Proof.
  apply (error_record_has_sentinel_time "hi" call_garbled). right. reflexivity.
Defined.

(** C2, as the specification has it, fails: the call with status 500
    completed after 1.5 seconds, and the record holds the sentinel string
    and no number. *)
Lemma error_record_time_not_measured :
  classify (answer call_500) = HTTPError
  /\ elapsed call_500 = (3 # 2)%Q
  /\ time_seconds (send_prompt_result "hi" call_500) = VStr "ERROR"
  /\ (forall q, time_seconds (send_prompt_result "hi" call_500) <> VFloat q).
Proof. repeat split; try reflexivity. intros q. discriminate. Qed.

(** C6: a call that raised the timeout exception gives a record with the
    string "TIMEOUT" in [time_seconds] and [None] in [response]. *)
Theorem timeout_record p c :
  classify (answer c) = Timeout ->
  time_seconds (send_prompt_result p c) = VStr "TIMEOUT"
  /\ response (send_prompt_result p c) = VNone.
Proof.
  unfold classify, send_prompt_result.
  destruct (answer c) as [code text body| |msg]; simpl; try done.
  destruct (negb (code =? 200)%Z); [done|]. by destruct body as [[]|].
Qed.

Lemma timeout_record_witness :
  time_seconds (send_prompt_result "hi" call_timeout) = VStr "TIMEOUT"
  /\ response (send_prompt_result "hi" call_timeout) = VNone.
Proof. apply (timeout_record "hi" call_timeout). reflexivity. Defined.

(** C10: among the replies that are no success, [output_tokens] is the
    string "TIMEOUT" for a timeout and the string "ERROR" for the three
    other kinds, so the field alone tells a timeout from the rest. *)
Theorem timeout_metric_distinct p c :
  classify (answer c) <> Success ->
  (classify (answer c) = Timeout -> output_tokens (send_prompt_result p c) = VStr "TIMEOUT")
  /\ (classify (answer c) <> Timeout -> output_tokens (send_prompt_result p c) = VStr "ERROR")
  /\ (output_tokens (send_prompt_result p c) = VStr "TIMEOUT" <-> classify (answer c) = Timeout).
Proof.
  unfold classify, send_prompt_result.
  destruct (answer c) as [code text body| |msg]; simpl.
  - destruct (negb (code =? 200)%Z); simpl; [by repeat split|].
    destruct body as [[]|]; simpl; by repeat split.
  - by repeat split.
  - by repeat split.
Qed.

Lemma timeout_metric_distinct_witness :
  (classify (answer call_timeout) = Timeout ->
     output_tokens (send_prompt_result "hi" call_timeout) = VStr "TIMEOUT")
  /\ (classify (answer call_timeout) <> Timeout ->
     output_tokens (send_prompt_result "hi" call_timeout) = VStr "ERROR")
  /\ (output_tokens (send_prompt_result "hi" call_timeout) = VStr "TIMEOUT"
       <-> classify (answer call_timeout) = Timeout).
Proof. apply (timeout_metric_distinct "hi" call_timeout). discriminate. Defined.

End ExecutorFacts.

Module DispatchFacts.
Import Executor Dispatch Samples.
#[local] Open Scope list_scope.

Lemma exec_app cfg tr1 tr2 s :
  exec cfg (tr1 ++ tr2) s = exec cfg tr1 s ≫= exec cfg tr2.
Proof.
  revert s. induction tr1 as [|e tr1 IH]; intros s; simpl; [done|].
  destruct (step cfg e s); simpl; [apply IH|done].
Qed.

Lemma exec_snoc cfg tr e s :
  exec cfg (tr ++ [e]) s = exec cfg tr s ≫= step cfg e.
Proof.
  rewrite exec_app. destruct (exec cfg tr s) as [s'|]; simpl; [|done].
  by destruct (step cfg e s').
Qed.

(** Induction along a run: a property of the first state that every
    step keeps holds in every reachable state. *)
Lemma reachable_ind cfg log0 (Q : state -> Prop) :
  Q (init log0) ->
  (forall e s s', reachable cfg log0 s -> Q s -> step cfg e s = Some s' -> Q s') ->
  forall s, reachable cfg log0 s -> Q s.
Proof.
  intros Hinit Hstep s [tr Htr]. revert s Htr.
  induction tr as [|e tr IH] using rev_ind; intros s Htr.
  - simpl in Htr. by inversion Htr.
  - rewrite exec_snoc in Htr.
    destruct (exec cfg tr (init log0)) as [s0|] eqn:E; simpl in Htr; [|done].
    eapply Hstep; [by exists tr| by apply IH | done].
Qed.

Lemma reachable_step cfg log0 e s s' :
  reachable cfg log0 s -> step cfg e s = Some s' -> reachable cfg log0 s'.
Proof.
  intros [tr Htr] Hs. exists (tr ++ [e])%list. rewrite exec_snoc, Htr. done.
Qed.

Lemma tsum_snoc f l w : tsum f (l ++ [w]) = tsum f l + f w.
Proof. unfold tsum. rewrite sum_list_with_app. simpl. lia. Qed.

Lemma tsum_insert f (l : list wstate) i w w' :
  l !! i = Some w -> tsum f (<[i:=w']> l) + f w = tsum f l + f w'.
Proof.
  intros H. unfold tsum.
  rewrite <- (take_drop_middle l i w H) at 2.
  rewrite (insert_take_drop l i w') by (by eapply lookup_lt_Some).
  rewrite !sum_list_with_app. simpl. lia.
Qed.

Lemma held_insert (l : list wstate) i w w' :
  l !! i = Some w ->
  (<[i:=w']> l ≫= held) ++ held w ≡ₚ (l ≫= held) ++ held w'.
Proof.
  intros H.
  rewrite <- (take_drop_middle l i w H) at 2.
  rewrite (insert_take_drop l i w') by (by eapply lookup_lt_Some).
  rewrite !bind_app, !bind_cons.
  rewrite <- !app_assoc.
  apply Permutation_app_head.
  rewrite (Permutation_app_comm (held w')), <- app_assoc.
  by rewrite (Permutation_app_swap_app (held w)).
Qed.

Lemma held_insert_same (l : list wstate) i w w' :
  l !! i = Some w -> held w' = held w -> <[i:=w']> l ≫= held ≡ₚ l ≫= held.
Proof.
  intros H E. apply (Permutation_app_inv_r (held w)).
  rewrite (held_insert l i w w' H). by rewrite E.
Qed.

Lemma tsum_lookup f (l : list wstate) i w : l !! i = Some w -> f w <= tsum f l.
Proof.
  intros H. apply sum_list_with_in. apply list_elem_of_lookup. by exists i.
Qed.

Lemma lookup_snoc_write (l : list wstate) j r :
  (l ++ [WGet]) !! j = Some (WWrite r) <-> l !! j = Some (WWrite r).
Proof.
  destruct (decide (j < length l)) as [Hlt|Hge].
  - by rewrite lookup_app_l.
  - rewrite lookup_app_r by lia. rewrite (lookup_ge_None_2 l j) by lia.
    destruct (j - length l) as [|n]; simpl; [|rewrite lookup_nil]; split; congruence.
Qed.

Lemma lookup_insert_write (l : list wstate) i w w' j r :
  l !! i = Some w -> (forall r', w <> WWrite r') -> (forall r', w' <> WWrite r') ->
  <[i:=w']> l !! j = Some (WWrite r) <-> l !! j = Some (WWrite r).
Proof.
  intros H Hw Hw'. destruct (decide (i = j)) as [->|Hne].
  - rewrite list_lookup_insert_eq by (by eapply lookup_lt_Some).
    rewrite H. split; intros E; inversion E; subst; [by destruct (Hw' r)|by destruct (Hw r)].
  - by rewrite list_lookup_insert_ne.
Qed.

Lemma prompt_send_prompt_result p c : prompt (send_prompt_result p c) = p.
Proof.
  unfold send_prompt_result. destruct (answer c) as [code text body| |msg]; try done.
  destruct (negb _); [done|]. destruct body as [data|]; [|done].
  by destruct (py_get data _ _).
Qed.

Lemma somes_snoc q x : somes (q ++ [x]) = (somes q ++ match x with Some p => [p] | None => [] end)%list.
Proof. unfold somes. rewrite omap_app. by destruct x. Qed.

Lemma nones_snoc q x : nones (q ++ [x]) = nones q + is_marker x.
Proof. unfold nones. rewrite sum_list_with_app. simpl. lia. Qed.

Lemma lock_keep (l : list wstate) i w w' (lk : option nat) :
  l !! i = Some w -> (forall r, w <> WWrite r) -> (forall r, w' <> WWrite r) ->
  (forall j, lk = Some j <-> exists r, l !! j = Some (WWrite r)) ->
  forall j, lk = Some j <-> exists r, <[i:=w']> l !! j = Some (WWrite r).
Proof.
  intros H Hw Hw' Hl j. rewrite Hl.
  split; intros [r Hr]; exists r; by eapply lookup_insert_write.
Qed.

Lemma lock_acquire (l : list wstate) i r :
  l !! i = Some (WAcquire r) ->
  (forall j, None = Some j <-> exists r', l !! j = Some (WWrite r')) ->
  forall j, Some i = Some j <-> exists r', <[i:=WWrite r]> l !! j = Some (WWrite r').
Proof.
  intros H Hl j. destruct (decide (i = j)) as [->|Hne].
  - rewrite list_lookup_insert_eq by (by eapply lookup_lt_Some). split; eauto.
  - rewrite list_lookup_insert_ne by done. rewrite <- Hl. split; congruence.
Qed.

Lemma lock_release (l : list wstate) i r w' (lk : option nat) :
  l !! i = Some (WWrite r) -> (forall r', w' <> WWrite r') ->
  (forall j, lk = Some j <-> exists r', l !! j = Some (WWrite r')) ->
  forall j, None = Some j <-> exists r', <[i:=w']> l !! j = Some (WWrite r').
Proof.
  intros H Hw' Hl j. split; [done|]. intros [r' Hr'].
  destruct (decide (i = j)) as [->|Hne].
  - rewrite list_lookup_insert_eq in Hr' by (by eapply lookup_lt_Some).
    inversion Hr'. by destruct (Hw' r').
  - rewrite list_lookup_insert_ne in Hr' by done.
    assert (lk = Some i) as Ei by (apply Hl; eauto).
    assert (lk = Some j) as Ej by (apply Hl; eauto). congruence.
Qed.

(** What changes when thread [i] moves from [w] to [w']. *)
Ltac moved Hi w' :=
  pose proof (tsum_insert pending _ _ _ w' Hi);
  pose proof (tsum_insert consumed _ _ _ w' Hi);
  pose proof (tsum_insert died _ _ _ w' Hi);
  pose proof (tsum_lookup pending _ _ _ Hi);
  pose proof (held_insert _ _ _ w' Hi) as Hheld.

(** The nine parts of [inv] after a move of thread [i] that leaves the
    file alone; [Hk] is the fact about the lock. *)
Ltac settle Hk Hi Hitems Hjoin :=
  split; simpl in *; rewrite ?length_insert;
  [ done | done | lia | by apply Hk | lia | lia
  | intros ->; simpl in *; apply lookup_lt_Some in Hi; lia
  | let Hne := fresh in let lost := fresh "lost" in
    let Hl := fresh in let Hperm := fresh in
    intros Hne; destruct (Hitems Hne) as (lost & Hl & Hperm);
    exists lost; split; [lia|];
    match goal with
    | Hheld : _ ++ _ ≡ₚ _ ++ _ |- _ =>
        first [ apply Permutation_app_inv_r in Hheld | rewrite app_nil_r in Hheld ];
        rewrite Hheld; etrans; [|exact Hperm]; by solve_Permutation
    end
  | let Hj := fresh in intros Hj; specialize (Hjoin Hj); lia ].

Section Preservation.
Variables (cfg : config) (P : list string) (log0 : list result).
Local Abbreviation W := (Nat.min (max_threads cfg) (length P)).

Lemma inv_main_step s s' :
  inv P W log0 s -> main_step cfg s = Some s' -> inv P W log0 s'.
Proof.
  intros [Hp [Hpc1 Hpc2] Hunf Hlock Hthr Hmark Hclr Hitems Hjoin].
  destruct s as [x P0 th q u lk out so]. unfold main_step. simpl in *. subst P0.
  destruct x as [| |[|k]|[|p rest]|[|k]| | | |]; try done.
  all: intros E; try (destruct u; [|done]); inversion E; subst; clear E.
  all: split; simpl.
  all: try done.
  all: rewrite ?tsum_snoc, ?nones_snoc, ?length_app, ?somes_snoc, ?bind_app; simpl in *.
  all: try lia.
  all: try (intros [?|?]; (done || lia)).
  all: try (intros i; rewrite Hlock; by setoid_rewrite lookup_snoc_write).
  all: try (intros _; apply Hjoin; by auto).
  all: intros _.
  all: try (destruct Hitems as (lost & Hl & Hperm); [done|];
            exists lost; split; [lia|]; etrans; [|exact Hperm]; by solve_Permutation).
  destruct (Hclr eq_refl) as [_ ->]. destruct th; [|simpl in Hthr; lia].
  exists []. split; [done|]. simpl. by rewrite app_nil_r.
Qed.

Lemma inv_worker_step i s s' :
  inv P W log0 s -> worker_step i s = Some s' -> inv P W log0 s'.
Proof.
  intros [Hp [Hpc1 Hpc2] Hunf Hlock Hthr Hmark Hclr Hitems Hjoin].
  destruct s as [x P0 th q u lk out so].
  unfold worker_step, task_done, set_thread. simpl in *. subst P0.
  destruct (th !! i) as [w|] eqn:Hi; [|done].
  destruct w; try done.
  - destruct q as [|[p|] q]; [done| |]; intros E; inversion E; subst s'; clear E.
    + moved Hi (WPost p). pose proof (lock_keep _ _ _ (WPost p) lk Hi) as Hk.
      settle Hk Hi Hitems Hjoin.
    + moved Hi WStop. pose proof (lock_keep _ _ _ WStop lk Hi) as Hk.
      settle Hk Hi Hitems Hjoin.
  - destruct lk; [done|]. intros E; inversion E; subst s'; clear E.
    moved Hi (WWrite r). pose proof (lock_acquire _ _ _ Hi Hlock) as Hk.
    settle Hk Hi Hitems Hjoin.
  - intros E; inversion E; subst s'; clear E.
    moved Hi WGet. pose proof (lock_keep _ _ _ WGet lk Hi) as Hk.
    destruct u; [simpl in *; lia|]. settle Hk Hi Hitems Hjoin.
  - intros E; inversion E; subst s'; clear E.
    moved Hi WBreak. pose proof (lock_keep _ _ _ WBreak lk Hi) as Hk.
    destruct u; [simpl in *; lia|]. settle Hk Hi Hitems Hjoin.
  - intros E; inversion E; subst s'; clear E.
    moved Hi WFinished. pose proof (lock_keep _ _ _ WFinished lk Hi) as Hk.
    settle Hk Hi Hitems Hjoin.
Qed.

Lemma inv_post_step i c s s' :
  inv P W log0 s -> post_step i c s = Some s' -> inv P W log0 s'.
Proof.
  intros [Hp [Hpc1 Hpc2] Hunf Hlock Hthr Hmark Hclr Hitems Hjoin].
  destruct s as [x P0 th q u lk out so].
  unfold post_step, set_thread. simpl in *. subst P0.
  destruct (th !! i) as [w|] eqn:Hi; [|done].
  destruct w; try done.
  intros E; inversion E; subst s'; clear E.
  moved Hi (WAcquire (send_prompt_result p c)).
  pose proof (lock_keep _ _ _ (WAcquire (send_prompt_result p c)) lk Hi) as Hk.
  simpl in Hheld. rewrite prompt_send_prompt_result in Hheld.
  settle Hk Hi Hitems Hjoin.
Qed.

Lemma inv_write_step i ok s s' :
  inv P W log0 s -> write_step i ok s = Some s' -> inv P W log0 s'.
Proof.
  intros [Hp [Hpc1 Hpc2] Hunf Hlock Hthr Hmark Hclr Hitems Hjoin].
  destruct s as [x P0 th q u lk out so].
  unfold write_step, set_thread. simpl in *. subst P0.
  destruct (th !! i) as [w|] eqn:Hi; [|done].
  destruct w; try done.
  destruct ok; intros E; inversion E; subst s'; clear E.
  - moved Hi WTaskDone. pose proof (lock_release _ _ _ WTaskDone lk Hi) as Hk.
    split; simpl in *; rewrite ?length_insert;
      [done|done|lia|by apply Hk|lia|lia| | |].
    + intros ->. simpl in *. apply lookup_lt_Some in Hi. lia.
    + intros Hne. destruct (Hitems Hne) as (lost & Hl & Hperm).
      exists lost. split; [lia|].
      rewrite app_nil_r in Hheld. rewrite <- Hheld in Hperm.
      etrans; [|exact Hperm]. rewrite fmap_app. simpl. by solve_Permutation.
    + intros Hj. specialize (Hjoin Hj). lia.
  - moved Hi WDied. pose proof (lock_release _ _ _ WDied lk Hi) as Hk.
    split; simpl in *; rewrite ?length_insert;
      [done|done|lia|by apply Hk|lia|lia| | |].
    + intros ->. simpl in *. apply lookup_lt_Some in Hi. lia.
    + intros Hne. destruct (Hitems Hne) as (lost & Hl & Hperm).
      exists (prompt r :: lost). split; [simpl; lia|].
      rewrite app_nil_r in Hheld. rewrite <- Hheld in Hperm.
      etrans; [|exact Hperm]. by solve_Permutation.
    + intros Hj. specialize (Hjoin Hj). lia.
Qed.

Lemma inv_step e s s' :
  inv P W log0 s -> step cfg e s = Some s' -> inv P W log0 s'.
Proof.
  destruct e; simpl;
    eauto using inv_main_step, inv_worker_step, inv_post_step, inv_write_step.
Qed.

(** The state in which [main] has read the prompts. *)
Lemma inv_loaded :
  inv P W log0 (set_pc MClear (set_prompts P (init log0))).
Proof.
  split; simpl; try done; try lia.
  intros i. split; [done|]. intros [r Hr]. by rewrite lookup_nil in Hr.
Qed.
End Preservation.

Lemma run_inv_step cfg log0 e s s' :
  run_inv cfg log0 s -> step cfg e s = Some s' -> run_inv cfg log0 s'.
Proof.
  intros [->|[[Hf ->]|(lines & Hf & Hinv)]] Hs.
  - destruct e; simpl in Hs; try (by rewrite lookup_nil in Hs).
    + unfold main_step in Hs. simpl in Hs.
      destruct (prompt_file cfg) as [lines|] eqn:Hf; inversion Hs; subst s'.
      * right; right. exists lines. split; [done|]. apply inv_loaded.
      * right; left. done.
    + unfold worker_step in Hs. simpl in Hs. done.
    + unfold post_step in Hs. simpl in Hs. done.
    + unfold write_step in Hs. simpl in Hs. done.
  - destruct e; simpl in Hs; done.
  - right; right. exists lines. split; [done|]. by eapply inv_step.
Qed.

Lemma run_inv_reachable cfg log0 s : reachable cfg log0 s -> run_inv cfg log0 s.
Proof.
  apply reachable_ind; [by left|]. intros e s0 s' _. apply run_inv_step.
Qed.

(** A reachable state past line 94 of a run whose prompt file exists. *)
Lemma reachable_inv cfg log0 lines s :
  prompt_file cfg = Some lines -> reachable cfg log0 s -> pc s <> MOpen ->
  inv (load_prompts lines)
      (Nat.min (max_threads cfg) (length (load_prompts lines))) log0 s.
Proof.
  intros Hf Hr Hpc.
  destruct (run_inv_reachable _ _ _ Hr) as [->|[[Hn _]|(lines' & Hf' & Hinv)]].
  - done.
  - congruence.
  - by replace lines with lines' by congruence.
Qed.

Lemma tsum_zero f (l : list wstate) w : tsum f l = 0 -> w ∈ l -> f w = 0.
Proof.
  intros H Hin. pose proof (sum_list_with_in w f l Hin). unfold tsum in H. lia.
Qed.

Lemma held_nil (l : list wstate) : tsum pending l = 0 -> l ≫= held = [].
Proof.
  induction l as [|w l IH]; [done|]. rewrite bind_cons. intros H.
  unfold tsum in H. simpl in H. rewrite IH by (unfold tsum; lia).
  destruct w; simpl in *; done || lia.
Qed.

Lemma died_le_pending (l : list wstate) : tsum died l <= tsum pending l.
Proof.
  induction l as [|w l IH]; [done|]. unfold tsum in *. simpl.
  destruct w; simpl; lia.
Qed.

Lemma somes_length q : length q = 0 -> somes q = [].
Proof. by destruct q. Qed.

Lemma joined_pc x : joined x = true -> x = MPrint \/ x = MReturned.
Proof. destruct x; simpl; auto; discriminate. Qed.

(** The file lock works: two threads inside the with-statement are the
    same thread. *)
Lemma one_writer cfg log0 s i j r r' :
  reachable cfg log0 s ->
  threads s !! i = Some (WWrite r) -> threads s !! j = Some (WWrite r') -> i = j.
Proof.
  intros Hr Hi Hj.
  destruct (run_inv_reachable _ _ _ Hr) as [->|[[_ ->]|(lines & _ & Hinv)]];
    try (simpl in Hi; by rewrite lookup_nil in Hi).
  pose proof (proj2 (inv_lock _ _ _ _ Hinv i) (ex_intro _ r Hi)).
  pose proof (proj2 (inv_lock _ _ _ _ Hinv j) (ex_intro _ r' Hj)).
  congruence.
Qed.



(** C9: once the loop that starts the threads is left, the list
    [threads] has min(MAX_THREADS, len(prompts)) entries. *)
Theorem pool_size cfg log0 lines s :
  prompt_file cfg = Some lines ->
  reachable cfg log0 s ->
  pool_started (pc s) = true ->
  length (threads s) = Nat.min (max_threads cfg) (length (load_prompts lines)).
Proof.
  intros Hf Hr Hpc.
  assert (pc s <> MOpen) as Hne by (by destruct (pc s)).
  pose proof (inv_threads _ _ _ _ (reachable_inv _ _ _ _ Hf Hr Hne)) as H.
  destruct (pc s); simpl in *; done || lia.
Qed.

Lemma lock_iff cfg log0 s i :
  reachable cfg log0 s ->
  file_lock s = Some i <-> exists r, threads s !! i = Some (WWrite r).
Proof.
  intros Hr.
  destruct (run_inv_reachable _ _ _ Hr) as [->|[[_ ->]|(lines & _ & Hinv)]].
  - simpl. split; [done|]. intros [r H]. by rewrite lookup_nil in H.
  - simpl. split; [done|]. intros [r H]. by rewrite lookup_nil in H.
  - apply (inv_lock _ _ _ _ Hinv).
Qed.

(** What one step does to the file: nothing, or it is the step of line
    101 that empties it, or it is the write of line 82, by which the
    thread that holds the lock adds the one record it has in hand, whole,
    at the end, and frees the lock. *)
Lemma step_file_change cfg log0 e s s' :
  reachable cfg log0 s -> step cfg e s = Some s' ->
  outfile s' = outfile s
  \/ (e = EMain /\ pc s = MClear /\ outfile s' = [])
  \/ (exists i r, e = EWrite i true /\ file_lock s = Some i
        /\ threads s !! i = Some (WWrite r) /\ outfile s' = outfile s ++ [r]).
Proof.
  intros Hr Hs. destruct e as [|i|i c|i ok]; simpl in Hs.
  - unfold main_step in Hs.
    destruct (pc s) as [| |[|k]|[|p rest]|[|k]| | | |] eqn:Hpc; try done.
    1: destruct (prompt_file cfg).
    10: destruct (unfinished_tasks s); [|done].
    all: inversion Hs; subst s'; simpl; auto.
  - left. unfold worker_step, task_done in Hs.
    destruct (threads s !! i) as [[]|]; try done.
    + destruct (queue s) as [|[p|] q]; inversion Hs; done.
    + destruct (file_lock s); inversion Hs; done.
    + destruct (unfinished_tasks s); inversion Hs; done.
    + destruct (unfinished_tasks s); inversion Hs; done.
    + inversion Hs; done.
  - left. unfold post_step in Hs. destruct (threads s !! i) as [[]|]; try done.
    inversion Hs; done.
  - unfold write_step in Hs.
    destruct (threads s !! i) as [w|] eqn:Hi; [|done]. destruct w; try done.
    destruct ok; inversion Hs; subst s'; simpl; [|by left].
    right; right. exists i, r. split; [done|]. split; [|done].
    apply (lock_iff _ _ _ i Hr). by exists r.
Qed.

(** C1.  A record gets into [OUTFILE] in one way only: the thread that
    holds [file_lock] adds the record it has in hand, whole, at the end of
    the file.  At every moment the lock is held exactly by the thread
    that is inside the with-statement of lines 80-82, so two threads are
    never inside it together and no write falls into another.  When
    [prompt_q.join()] has returned, the prompts of the records in the file
    are the prompts of the run, each as often as it was given: one record
    per work item, none missing, none written twice, whatever the size of
    the pool and the order in which the threads ran; and no write is under
    way any more: the lock is free and no thread holds a record that is
    not in the file. *)
Theorem one_record_per_item cfg log0 lines s :
  prompt_file cfg = Some lines ->
  reachable cfg log0 s ->
  (forall i, file_lock s = Some i <-> exists r, threads s !! i = Some (WWrite r))
  /\ (forall i j r r', threads s !! i = Some (WWrite r) ->
        threads s !! j = Some (WWrite r') -> i = j)
  /\ (forall e s', step cfg e s = Some s' ->
        outfile s' = outfile s
        \/ (e = EMain /\ pc s = MClear /\ outfile s' = [])
        \/ (exists i r, e = EWrite i true /\ file_lock s = Some i
              /\ threads s !! i = Some (WWrite r) /\ outfile s' = outfile s ++ [r]))
  /\ (joined (pc s) = true ->
        prompt <$> outfile s ≡ₚ load_prompts lines
        /\ length (outfile s) = length (load_prompts lines)
        /\ file_lock s = None
        /\ (forall w, w ∈ threads s -> held w = [])).
Proof.
  intros Hf Hr.
  split; [intros i; by apply lock_iff with cfg log0|].
  split; [intros i j r r'; by apply one_writer with cfg log0|].
  split; [intros e s'; by apply step_file_change with log0|].
  intros Hpc. apply joined_pc in Hpc.
  assert (pc s <> MOpen) as Hne by (destruct Hpc as [E|E]; rewrite E; done).
  destruct (reachable_inv _ _ _ _ Hf Hr Hne)
    as [Hp _ Hunf Hlock _ _ _ Hitems Hjoin].
  specialize (Hjoin Hpc).
  assert (pc s <> MClear) as Hc by (destruct Hpc as [E|E]; rewrite E; done).
  destruct (Hitems Hc) as (lost & Hl & Hperm).
  assert (tsum pending (threads s) = 0) as Hz by lia.
  pose proof (died_le_pending (threads s)).
  assert (lost = []) as -> by (apply nil_length_inv; lia).
  rewrite (held_nil _ Hz), somes_length in Hperm by lia.
  assert (todo (load_prompts lines) (pc s) = []) as Ht
    by (destruct Hpc as [E|E]; by rewrite E).
  rewrite Ht in Hperm. simpl in Hperm. rewrite app_nil_r in Hperm.
  split; [done|]. split; [rewrite <- Hperm; by rewrite length_fmap|].
  split.
  - destruct (file_lock s) as [i|] eqn:Hlk; [|done].
    destruct (proj1 (Hlock i) eq_refl) as [r Hr'].
    apply list_elem_of_lookup_2 in Hr'.
    pose proof (tsum_zero pending _ _ Hz Hr'). done.
  - intros w Hw. pose proof (tsum_zero pending _ _ Hz Hw).
    destruct w; simpl in *; done.
Qed.


Lemma worker_step_pc i s s' : worker_step i s = Some s' -> pc s' = pc s.
Proof.
  unfold worker_step, task_done.
  destruct (threads s !! i) as [[]|]; try done.
  - destruct (queue s) as [|[p|] q]; intros E; inversion E; done.
  - destruct (file_lock s); intros E; inversion E; done.
  - destruct (unfinished_tasks s); intros E; inversion E; done.
  - destruct (unfinished_tasks s); intros E; inversion E; done.
  - intros E; inversion E; done.
Qed.

Lemma post_step_pc i c s s' : post_step i c s = Some s' -> pc s' = pc s.
Proof.
  unfold post_step. destruct (threads s !! i) as [[]|]; try done.
  intros E; inversion E; done.
Qed.

Lemma write_step_pc i ok s s' : write_step i ok s = Some s' -> pc s' = pc s.
Proof.
  unfold write_step. destruct (threads s !! i) as [[]|]; try done.
  destruct ok; intros E; inversion E; done.
Qed.






Lemma clears_snoc cfg tr e s0 :
  clears cfg (tr ++ [e]) s0 =
    clears cfg tr s0 +
      match exec cfg tr s0 with
      | Some s => match step cfg e s with Some _ => clear_of e s | None => 0 end
      | None => 0
      end.
Proof.
  revert s0. induction tr as [|e' tr IH]; intros s0; simpl.
  - destruct (step cfg e s0); lia.
  - destruct (step cfg e' s0) as [s1|]; [|done]. rewrite IH. lia.
Qed.



(** The file is opened for writing once the main thread is past line 101,
    and not before. *)
Lemma clears_cleared cfg log0 tr s :
  exec cfg tr (init log0) = Some s ->
  clears cfg tr (init log0) = if cleared (pc s) then 1 else 0.
Proof.
  revert s. induction tr as [|e tr IH] using rev_ind; intros s Hs.
  - inversion Hs. done.
  - rewrite exec_snoc in Hs. rewrite clears_snoc.
    destruct (exec cfg tr (init log0)) as [s0|] eqn:E0; [|done]. simpl in Hs.
    rewrite (IH s0 eq_refl), Hs.
    destruct e; simpl in Hs.
    2: { rewrite (worker_step_pc _ _ _ Hs). simpl. lia. }
    2: { rewrite (post_step_pc _ _ _ _ Hs). simpl. lia. }
    2: { rewrite (write_step_pc _ _ _ _ Hs). simpl. lia. }
    unfold main_step in Hs. simpl.
    destruct (pc s0) as [| |[|k]|[|p rest]|[|k]| | | |] eqn:Hpc; try done.
    1: destruct (prompt_file cfg).
    10: destruct (unfinished_tasks s0); [|done].
    all: inversion Hs; subst s; simpl; done.
Qed.

(** What one step does to the file: the step of line 101 empties it, and
    no thread runs yet; any other step leaves it or adds at its end. *)
Lemma step_outfile cfg log0 e s s' :
  reachable cfg log0 s -> step cfg e s = Some s' ->
  match clear_of e s with
  | O => outfile s `prefix_of` outfile s'
  | S _ => threads s = [] /\ outfile s' = []
  end.
Proof.
  intros Hr Hs. destruct e; simpl in *.
  - unfold main_step in Hs.
    destruct (pc s) as [| |[|k]|[|p rest]|[|k]| | | |] eqn:Hpc; try done.
    1: destruct (prompt_file cfg).
    10: destruct (unfinished_tasks s); [|done].
    all: inversion Hs; subst s'; simpl; try done.
    split; [|done].
    destruct (run_inv_reachable _ _ _ Hr) as [->|[[_ ->]|(lines & _ & Hinv)]];
      try done.
    pose proof (inv_threads _ _ _ _ Hinv) as Ht. rewrite Hpc in Ht. simpl in Ht.
    apply nil_length_inv. lia.
  - unfold worker_step, task_done in Hs.
    destruct (threads s !! i) as [[]|]; try done.
    + destruct (queue s) as [|[p|] q]; inversion Hs; done.
    + destruct (file_lock s); inversion Hs; done.
    + destruct (unfinished_tasks s); inversion Hs; done.
    + destruct (unfinished_tasks s); inversion Hs; done.
    + inversion Hs; done.
  - unfold post_step in Hs. destruct (threads s !! i) as [[]|]; try done.
    inversion Hs; done.
  - unfold write_step in Hs. destruct (threads s !! i) as [[]|]; try done.
    destruct ok; inversion Hs; simpl; [by apply prefix_app_r|done].
Qed.

(** When [join] has returned the file holds as many records as there
    are prompts. *)
Lemma joined_log_length cfg log0 lines s :
  prompt_file cfg = Some lines -> reachable cfg log0 s -> joined (pc s) = true ->
  length (outfile s) = length (load_prompts lines).
Proof.
  intros Hf Hr Hj.
  assert (pc s <> MOpen) as Hne by (by destruct (pc s)).
  assert (pc s <> MClear) as Hc by (by destruct (pc s)).
  destruct (reachable_inv _ _ _ _ Hf Hr Hne) as [_ _ Hunf _ _ _ _ Hitems Hjoin].
  specialize (Hjoin (joined_pc _ Hj)).
  destruct (Hitems Hc) as (lost & Hl & Hperm).
  assert (tsum pending (threads s) = 0) as Hz by lia.
  pose proof (died_le_pending (threads s)).
  rewrite (held_nil _ Hz), somes_length in Hperm by lia.
  apply Permutation_length in Hperm.
  rewrite !length_app, length_fmap in Hperm.
  assert (todo (load_prompts lines) (pc s) = []) as Ht by (by destruct (pc s)).
  rewrite Ht in Hperm. simpl in Hperm. lia.
Qed.

(** C8: a run that follows an earlier run over the same prompt file
    leaves as many records as the earlier one, one per prompt, whatever
    the file held before.  The run opens the file for writing once; that
    step empties the file while no thread is started, and every other
    step leaves the file or adds one record at its end. *)
Theorem rerun_log_length cfg log0 lines tr1 s1 tr2 s2 :
  prompt_file cfg = Some lines ->
  exec cfg tr1 (init log0) = Some s1 -> pc s1 = MReturned ->
  exec cfg tr2 (init (outfile s1)) = Some s2 -> pc s2 = MReturned ->
  length (outfile s2) = length (load_prompts lines)
  /\ length (outfile s2) = length (outfile s1)
  /\ clears cfg tr2 (init (outfile s1)) = 1
  /\ (forall e s s', reachable cfg (outfile s1) s -> step cfg e s = Some s' ->
        match clear_of e s with
        | O => outfile s `prefix_of` outfile s'
        | S _ => threads s = [] /\ outfile s' = []
        end).
Proof.
  intros Hf H1 Hp1 H2 Hp2.
  assert (reachable cfg log0 s1) as Hr1 by (by exists tr1).
  assert (reachable cfg (outfile s1) s2) as Hr2 by (by exists tr2).
  assert (joined (pc s1) = true) as Hj1 by (by rewrite Hp1).
  assert (joined (pc s2) = true) as Hj2 by (by rewrite Hp2).
  pose proof (joined_log_length _ _ _ _ Hf Hr1 Hj1) as Hl1.
  pose proof (joined_log_length _ _ _ _ Hf Hr2 Hj2) as Hl2.
  split; [done|]. split; [congruence|]. split.
  - rewrite (clears_cleared _ _ _ _ H2), Hp2. done.
  - intros e s s'. apply step_outfile.
Qed.

Lemma consumed_all (l : list wstate) :
  tsum consumed l <= length l /\
  (tsum consumed l = length l -> forall w, w ∈ l -> consumed w = 1).
Proof.
  induction l as [|w l [IH1 IH2]]; unfold tsum in *; simpl.
  - split; [lia|]. intros _ w Hw. by apply elem_of_nil in Hw.
  - assert (consumed w <= 1) by (destruct w; simpl; lia).
    split; [lia|]. intros E w' Hw'. apply elem_of_cons in Hw' as [->|Hw'].
    + lia.
    + apply IH2; [lia|done].
Qed.

(** C4, as the code has it: [prompt_q.join()] returns only when every
    entry of the queue, marker or prompt, was taken and marked done.  When
    it has returned the queue is empty and every thread is past the
    [task_done] of its marker, at the [break] or gone.  It does not wait
    for the threads to leave: in the run [run_join_early] the main thread
    is past [join] while the worker stands before its [break]. *)
Theorem join_waits_for_markers cfg log0 lines s :
  prompt_file cfg = Some lines ->
  reachable cfg log0 s ->
  joined (pc s) = true ->
  queue s = [] /\ unfinished_tasks s = 0
  /\ (forall w, w ∈ threads s -> w = WBreak \/ w = WFinished)
  /\ (exists s', exec cfg_one run_join_early (init []) = Some s'
                /\ joined (pc s') = true /\ threads s' = [WBreak]).
Proof.
  intros Hf Hr Hj.
  assert (pc s <> MOpen) as Hne by (by destruct (pc s)).
  destruct (reachable_inv _ _ _ _ Hf Hr Hne)
    as [_ _ Hunf _ Hthr Hmark _ _ Hjoin].
  specialize (Hjoin (joined_pc _ Hj)).
  assert (length (queue s) = 0) as Hq by lia.
  assert (tsum pending (threads s) = 0) as Hz by lia.
  split; [by apply nil_length_inv|]. split; [done|]. split.
  - intros w Hw.
    assert (nones (queue s) = 0) as Hn by (by destruct (queue s)).
    assert (tsum consumed (threads s) = length (threads s)) as Hc
      by (destruct (pc s); simpl in *; done || lia).
    pose proof (proj2 (consumed_all _) Hc w Hw).
    pose proof (tsum_zero pending _ _ Hz Hw).
    destruct w; simpl in *; auto; done.
  - eexists. split; [vm_compute; reflexivity|]. by vm_compute.
Qed.

(** C4, as the specification has it, fails: after [run_marker_left] the one
    prompt has its record and was marked done, no thread holds an item,
    and the main thread cannot leave [join], for the marker is still in
    the queue. *)
Lemma join_blocked_by_marker :
  exists s, exec cfg_one run_marker_left (init []) = Some s
    /\ pc s = MJoin
    /\ prompt <$> outfile s = ["hello"]
    /\ threads s = [WGet]
    /\ queue s = [None]
    /\ unfinished_tasks s = 1
    /\ step cfg_one EMain s = None.
Proof. eexists. split; [vm_compute; reflexivity|]. by vm_compute. Qed.

Lemma reachable_exec cfg log0 tr s s' :
  reachable cfg log0 s -> exec cfg tr s = Some s' -> reachable cfg log0 s'.
Proof.
  intros [tr0 H0] H. exists (tr0 ++ tr). rewrite exec_app, H0. done.
Qed.

(** A thread that died stays dead. *)
Lemma died_stable_step cfg e s s' i :
  step cfg e s = Some s' -> threads s !! i = Some WDied -> threads s' !! i = Some WDied.
Proof.
  intros Hs Hi. destruct e as [|j|j c|j ok]; simpl in Hs.
  - unfold main_step in Hs.
    destruct (pc s) as [| |[|k]|[|p rest]|[|k]| | | |] eqn:Hpc; try done.
    1: destruct (prompt_file cfg).
    10: destruct (unfinished_tasks s); [|done].
    all: inversion Hs; subst s'; simpl; try done.
    by apply lookup_app_l_Some.
  - unfold worker_step, task_done in Hs.
    destruct (decide (j = i)) as [->|Hne]; [by rewrite Hi in Hs|].
    destruct (threads s !! j) as [[]|]; try done.
    + destruct (queue s) as [|[p|] q]; inversion Hs; subst s'; simpl;
        by rewrite list_lookup_insert_ne.
    + destruct (file_lock s); inversion Hs; subst s'; simpl;
        by rewrite list_lookup_insert_ne.
    + destruct (unfinished_tasks s); inversion Hs; subst s'; simpl;
        by rewrite list_lookup_insert_ne.
    + destruct (unfinished_tasks s); inversion Hs; subst s'; simpl;
        by rewrite list_lookup_insert_ne.
    + inversion Hs; subst s'; simpl; by rewrite list_lookup_insert_ne.
  - unfold post_step in Hs.
    destruct (decide (j = i)) as [->|Hne]; [by rewrite Hi in Hs|].
    destruct (threads s !! j) as [[]|]; try done.
    inversion Hs; subst s'; simpl; by rewrite list_lookup_insert_ne.
  - unfold write_step in Hs.
    destruct (decide (j = i)) as [->|Hne]; [by rewrite Hi in Hs|].
    destruct (threads s !! j) as [[]|]; try done.
    destruct ok; inversion Hs; subst s'; simpl; by rewrite list_lookup_insert_ne.
Qed.

Lemma died_stable cfg tr s s' i :
  exec cfg tr s = Some s' -> threads s !! i = Some WDied -> threads s' !! i = Some WDied.
Proof.
  revert s. induction tr as [|e tr IH]; intros s Hs Hi; simpl in Hs.
  - by inversion Hs; subst.
  - destruct (step cfg e s) as [s1|] eqn:E; [|done].
    eapply IH; [done|]. by eapply died_stable_step.
Qed.

(** A state with a dead thread: the main thread never gets past [join],
    the process does not end, and the file stays short of a record. *)
Lemma dead_thread_blocks cfg log0 s i :
  reachable cfg log0 s -> threads s !! i = Some WDied ->
  joined (pc s) = false /\ exit_code s = None
  /\ length (outfile s) < length (prompts s).
Proof.
  intros Hr Hi.
  destruct (run_inv_reachable _ _ _ Hr) as [->|[[_ ->]|(lines & _ & Hinv)]];
    try (simpl in Hi; by rewrite lookup_nil in Hi).
  destruct Hinv as [Hp [Hpc1 Hpc2] Hunf _ Hthr _ _ Hitems Hjoin].
  pose proof (tsum_lookup pending _ _ _ Hi) as Hpe.
  pose proof (tsum_lookup died _ _ _ Hi) as Hd. simpl in Hpe, Hd.
  assert (joined (pc s) = false) as Hj.
  { destruct (joined (pc s)) eqn:Hj; [|done].
    specialize (Hjoin (joined_pc _ Hj)). lia. }
  split; [done|]. split.
  - unfold exit_code. destruct (forallb terminated (threads s)); [|done].
    destruct (pc s); simpl in *; done.
  - assert (pc s <> MClear) as Hc.
    { intros E. rewrite E in Hthr. simpl in Hthr.
      apply lookup_lt_Some in Hi. lia. }
    destruct (Hitems Hc) as (lost & Hl & Hperm).
    apply Permutation_length in Hperm.
    rewrite !length_app, length_fmap, Hp in *. lia.
Qed.

(** C5, as the code has it: the write of line 82 stands outside the
    try-statement, so when it raises the thread ends there.  The lock is
    released, nothing is added to the file, [task_done] is not called;
    from then on the thread stays dead, the main thread never leaves
    [join], the process does not end and the file stays short of a
    record, whatever the other threads do. *)
Theorem write_failure_kills_worker cfg log0 s i r :
  reachable cfg log0 s ->
  threads s !! i = Some (WWrite r) ->
  exists s', step cfg (EWrite i false) s = Some s'
    /\ threads s' !! i = Some WDied
    /\ outfile s' = outfile s
    /\ file_lock s' = None
    /\ unfinished_tasks s' = unfinished_tasks s
    /\ (forall tr s'', exec cfg tr s' = Some s'' ->
          threads s'' !! i = Some WDied
          /\ joined (pc s'') = false
          /\ exit_code s'' = None
          /\ length (outfile s'') < length (prompts s'')).
Proof.
  intros Hr Hi.
  assert (step cfg (EWrite i false) s = Some (set_lock None (set_thread i WDied s)))
    as Hstep by (unfold step, write_step; by rewrite Hi).
  exists (set_lock None (set_thread i WDied s)). split; [done|].
  assert (threads (set_lock None (set_thread i WDied s)) !! i = Some WDied) as Hd.
  { simpl. apply list_lookup_insert_eq. by eapply lookup_lt_Some. }
  split; [done|]. do 3 (split; [done|]).
  intros tr s'' Htr.
  assert (reachable cfg log0 (set_lock None (set_thread i WDied s))) as Hr'.
  { eapply reachable_step; [exact Hr|exact Hstep]. }
  pose proof (died_stable _ _ _ _ _ Htr Hd) as Hd''.
  split; [done|]. eapply dead_thread_blocks; [|exact Hd''].
  by eapply reachable_exec.
Qed.

(** C5, as the specification has it, fails: after [run_write_fails] the
    thread is dead, the file holds no record for the prompt, of the
    transport-error kind or of any other, and no step is left to any
    thread: the process neither goes on nor ends. *)
Lemma write_failure_not_recorded :
  exists s, exec cfg_one run_write_fails (init []) = Some s
    /\ threads s = [WDied]
    /\ outfile s = []
    /\ exit_code s = None
    /\ (forall e, step cfg_one e s = None).
Proof.
  eexists. split; [vm_compute; reflexivity|]. do 3 (split; [by vm_compute|]).
  intros [|[|i]|[|i] c|[|i] ok]; by vm_compute.
Qed.

(** Over a prompt file without a prompt only the main thread ever moves,
    and the states of the run are those of [blank_run_state], in their
    order. *)
Lemma blank_run_states cfg log0 lines s :
  prompt_file cfg = Some lines -> load_prompts lines = [] ->
  reachable cfg log0 s ->
  exists k, k <= 7 /\ s = blank_run_state log0 k.
Proof.
  intros Hf Hl Hr. pattern s. revert s Hr. apply reachable_ind; cbv beta.
  - exists 0. split; [lia|done].
  - intros e s s' _ (k & Hk & ->) Hs.
    destruct e as [|i|i c|i ok];
      [|do 8 (try destruct k as [|k]); simpl in Hs; done..].
    do 8 (try destruct k as [|k]); try lia; simpl in Hs; unfold main_step in Hs;
      simpl in Hs; try rewrite Hf, Hl in Hs; try rewrite Nat.min_0_r in Hs;
      try done; inversion Hs.
    + exists 1. split; [lia|done].
    + exists 2. split; [lia|done].
    + exists 3. split; [lia|done].
    + exists 4. split; [lia|done].
    + exists 5. split; [lia|done].
    + exists 6. split; [lia|done].
    + exists 7. split; [lia|done].
Qed.

(** C3, as the code has it.  Without a prompt file the first step of
    [main] raises: no thread is ever started, the file keeps what it
    held, nothing is printed on the standard output and the process ends
    with status 1.  A prompt file without a prompt is no error: no thread
    is started either, the main thread is never blocked before it has
    returned, and the run, which is [run_blank], ends with the file
    emptied, the count 0 printed and status 0. *)
Theorem config_error_behaviour cfg log0 s :
  reachable cfg log0 s ->
  (prompt_file cfg = None ->
     exec cfg [EMain] (init log0) = Some (set_pc MRaised (init log0))
     /\ exit_code (set_pc MRaised (init log0)) = Some 1
     /\ (s = init log0 \/ s = set_pc MRaised (init log0))
     /\ threads s = [] /\ outfile s = log0 /\ stdout s = [])
  /\ (forall lines, prompt_file cfg = Some lines -> load_prompts lines = [] ->
     threads s = []
     /\ (exit_code s = Some 0 \/ exists s', step cfg EMain s = Some s')
     /\ (pc s = MReturned ->
         exit_code s = Some 0 /\ outfile s = []
         /\ stdout s = [completed_message 0])
     /\ (exists s', exec cfg run_blank (init log0) = Some s'
          /\ pc s' = MReturned /\ threads s' = []
          /\ exit_code s' = Some 0 /\ outfile s' = []
          /\ stdout s' = [completed_message 0])).
Proof.
  intros Hr. split.
  - intros Hf. split; [simpl; unfold main_step; simpl; by rewrite Hf|].
    split; [done|].
    destruct (run_inv_reachable _ _ _ Hr) as [->|[[_ ->]|(lines & Hf' & _)]];
      [auto 6..|congruence].
  - intros lines Hf Hl.
    destruct (blank_run_states _ _ _ _ Hf Hl Hr) as (k & Hk & ->).
    split; [by do 8 (try destruct k as [|k])|].
    split.
    { do 7 (destruct k as [|k];
        [right; simpl; unfold main_step; simpl; try rewrite Hf; eauto|]).
      by left. }
    split; [by do 8 (try destruct k as [|k])|].
    exists (blank_run_state log0 7).
    split; [|done].
    simpl. unfold main_step. simpl. rewrite Hf, Hl. simpl.
    by rewrite Nat.min_0_r.
Qed.

(** C3, as the specification has it, fails for a file without a prompt:
    the run over the blank file ends with status 0 and has emptied the
    file, which held a record before. *)
Lemma zero_items_clears_and_exits_0 :
  prompt_file cfg_blank = Some [""; "   "]
  /\ load_prompts [""; "   "] = []
  /\ exists s, exec cfg_blank run_blank (init old_log) = Some s
       /\ exit_code s = Some 0
       /\ outfile s = []
       /\ outfile s <> old_log.
Proof.
  split; [done|]. split; [done|].
  eexists. split; [vm_compute; reflexivity|]. by vm_compute.
Qed.

(** ** A schedule that completes *)

Lemma start_loop cfg P k th :
  exec cfg (replicate k EMain) (mk_state (MStart k) P th [] 0 None [] []) =
    Some (mk_state (MStart 0) P (th ++ replicate k WGet) [] 0 None [] []).
Proof.
  revert th. induction k as [|k IH]; intros th; simpl.
  - by rewrite app_nil_r.
  - unfold main_step, set_pc, set_threads. simpl. rewrite IH.
    by rewrite <- app_assoc.
Qed.

Lemma put_loop cfg P rest th q u :
  exec cfg (replicate (length rest) EMain) (mk_state (MPut rest) P th q u None [] []) =
    Some (mk_state (MPut []) P th (q ++ (Some <$> rest)) (length rest + u) None [] []).
Proof.
  revert q u. induction rest as [|p rest IH]; intros q u; simpl.
  - by rewrite app_nil_r.
  - unfold main_step, set_pc, put, set_unfinished, set_queue. simpl. rewrite IH.
    rewrite <- app_assoc. simpl. do 3 f_equal. lia.
Qed.

Lemma signal_loop cfg P k th q u :
  exec cfg (replicate k EMain) (mk_state (MSignal k) P th q u None [] []) =
    Some (mk_state (MSignal 0) P th (q ++ replicate k None) (k + u) None [] []).
Proof.
  revert q u. induction k as [|k IH]; intros q u; simpl.
  - by rewrite app_nil_r.
  - unfold main_step, set_pc, put, set_unfinished, set_queue. simpl. rewrite IH.
    rewrite <- app_assoc. simpl. do 3 f_equal. lia.
Qed.

Lemma main_to_join_runs cfg log0 lines :
  prompt_file cfg = Some lines ->
  let P := load_prompts lines in
  let W := Nat.min (max_threads cfg) (length P) in
  exec cfg (main_to_join (length P) W) (init log0) =
    Some (mk_state MJoin P (replicate W WGet) ((Some <$> P) ++ replicate W None)
                   (length P + W) None [] []).
Proof.
  intros Hf P W. unfold main_to_join.
  replace (length P + 2 * W + 5)
    with (2 + (W + (1 + (length P + (1 + (W + 1)))))) by lia.
  rewrite !replicate_add, exec_app.
  assert (exec cfg (replicate 2 EMain) (init log0)
          = Some (mk_state (MStart W) P [] [] 0 None [] [])) as ->.
  { simpl. unfold main_step. simpl. rewrite Hf. done. }
  simpl. rewrite exec_app, start_loop. simpl. unfold set_pc. simpl.
  rewrite exec_app, put_loop. simpl. unfold set_pc. simpl.
  rewrite length_replicate, exec_app, signal_loop. simpl. unfold set_pc. simpl.
  by replace (W + (length P + 0)) with (length P + W) by lia.
Qed.

Lemma serve_loop cfg c x P items th q u out so :
  exec cfg (serve_all c items)
       (mk_state x P (WGet :: th) ((Some <$> items) ++ q) (length items + u) None out so) =
    Some (mk_state x P (WGet :: th) q u None
                   (out ++ ((fun p => send_prompt_result p c) <$> items)) so).
Proof.
  revert out. induction items as [|p items IH]; intros out.
  - simpl. by rewrite app_nil_r.
  - unfold serve_all in *. rewrite bind_cons, exec_app.
    assert (exec cfg (work_item 0 c)
              (mk_state x P (WGet :: th) ((Some <$> p :: items) ++ q)
                        (length (p :: items) + u) None out so)
            = Some (mk_state x P (WGet :: th) ((Some <$> items) ++ q)
                             (length items + u) None (out ++ [send_prompt_result p c]) so))
      as -> by (cbn -[send_prompt_result]; reflexivity).
    cbn -[send_prompt_result exec]. rewrite IH. by rewrite <- app_assoc.
Qed.

Lemma stop_loop cfg x P gone m u out so :
  exec cfg (stop_all (length gone) m)
       (mk_state x P (gone ++ replicate m WGet) (replicate m None) (m + u) None out so) =
    Some (mk_state x P (gone ++ replicate m WFinished) [] u None out so).
Proof.
  revert gone. induction m as [|m IH]; intros gone.
  - done.
  - unfold stop_all in *. simpl seq. rewrite bind_cons, exec_app. simpl.
    unfold worker_step at 1. simpl.
    rewrite (list_lookup_middle gone _ WGet (length gone) eq_refl).
    unfold set_thread, set_threads, set_queue. simpl.
    rewrite (insert_app_r_alt gone _ (length gone)) by lia.
    rewrite Nat.sub_diag. simpl.
    unfold worker_step at 1. simpl.
    rewrite (list_lookup_middle gone _ WStop (length gone) eq_refl).
    unfold task_done, set_thread, set_threads, set_unfinished. simpl.
    rewrite (insert_app_r_alt gone _ (length gone)) by lia.
    rewrite Nat.sub_diag. simpl.
    unfold worker_step at 1. simpl.
    rewrite (list_lookup_middle gone _ WBreak (length gone) eq_refl).
    unfold set_thread, set_threads. simpl.
    rewrite (insert_app_r_alt gone _ (length gone)) by lia.
    rewrite Nat.sub_diag. simpl.
    specialize (IH (gone ++ [WFinished])).
    rewrite length_app in IH. simpl in IH. rewrite Nat.add_1_r in IH.
    rewrite <- !app_assoc in IH. simpl in IH. exact IH.
Qed.

(** A run can always complete: when the prompt file is there and the pool
    is not empty (or there is no prompt), the schedule [one_by_one] runs
    to the end, with status 0 and one record per prompt in the file. *)
Lemma run_can_complete cfg log0 lines c :
  prompt_file cfg = Some lines ->
  load_prompts lines = [] \/ 1 <= max_threads cfg ->
  let P := load_prompts lines in
  let W := Nat.min (max_threads cfg) (length P) in
  exists s, exec cfg (one_by_one c P W) (init log0) = Some s
    /\ pc s = MReturned
    /\ exit_code s = Some 0
    /\ outfile s = (fun p => send_prompt_result p c) <$> P.
Proof.
  intros Hf Hw. cbv zeta.
  pose proof (main_to_join_runs cfg log0 lines Hf) as Hmain. cbv zeta in Hmain.
  set (P := load_prompts lines) in *.
  set (W := Nat.min (max_threads cfg) (length P)) in *.
  unfold one_by_one. rewrite exec_app, Hmain. cbn [mbind option_bind].
  rewrite exec_app.
  assert (exec cfg (serve_all c P)
            (mk_state MJoin P (replicate W WGet) ((Some <$> P) ++ replicate W None)
                      (length P + W) None [] [])
          = Some (mk_state MJoin P (replicate W WGet) (replicate W None) W None
                           ((fun p => send_prompt_result p c) <$> P) [])) as ->.
  { destruct W as [|W'] eqn:EW.
    - assert (P = []) as -> by (destruct Hw as [E|E]; [done|apply nil_length_inv; lia]).
      done.
    - apply (serve_loop cfg c MJoin P P (replicate W' WGet)). }
  cbn [mbind option_bind]. rewrite exec_app.
  pose proof (stop_loop cfg MJoin P [] W 0 ((fun p => send_prompt_result p c) <$> P) []) as Hstop.
  cbn [length app] in Hstop. rewrite Nat.add_0_r in Hstop. rewrite Hstop.
  cbn -[send_prompt_result].
  eexists. split; [reflexivity|]. split; [done|]. split; [|done].
  unfold exit_code. cbn -[send_prompt_result forallb].
  assert (forallb terminated (replicate W WFinished) = true) as ->; [|done].
  clear. induction W as [|W IH]; [done|]. exact IH.
Qed.

(** ** The theorems at the sample runs *)

Example final_two_state :
  pc final_two = MReturned /\ threads final_two = [WFinished; WFinished]
  /\ prompt <$> outfile final_two = ["b"; "a"] /\ exit_code final_two = Some 0.
Proof. by vm_compute. Qed.

Lemma final_two_reachable : exec cfg_two run_two (init old_log) = Some final_two.
Proof. vm_compute. reflexivity. Defined.

Lemma final_two_again_reachable :
  exec cfg_two run_two (init (outfile final_two)) = Some final_two_again.
Proof. vm_compute. reflexivity. Defined.

Lemma one_record_per_item_witness :
  (forall i, file_lock final_two = Some i
     <-> exists r, threads final_two !! i = Some (WWrite r))
  /\ (forall i j r r', threads final_two !! i = Some (WWrite r) ->
        threads final_two !! j = Some (WWrite r') -> i = j)
  /\ (forall e s', step cfg_two e final_two = Some s' ->
        outfile s' = outfile final_two
        \/ (e = EMain /\ pc final_two = MClear /\ outfile s' = [])
        \/ (exists i r, e = EWrite i true /\ file_lock final_two = Some i
              /\ threads final_two !! i = Some (WWrite r)
              /\ outfile s' = outfile final_two ++ [r]))
  /\ (joined (pc final_two) = true ->
        prompt <$> outfile final_two ≡ₚ load_prompts lines_two
        /\ length (outfile final_two) = length (load_prompts lines_two)
        /\ file_lock final_two = None
        /\ (forall w, w ∈ threads final_two -> held w = [])).
Proof.
  apply (one_record_per_item cfg_two old_log lines_two final_two).
  - reflexivity.
  - exists run_two. exact final_two_reachable.
Defined.

Lemma pool_size_witness :
  length (threads final_two) = Nat.min (max_threads cfg_two) (length (load_prompts lines_two)).
Proof.
  apply (pool_size cfg_two old_log lines_two final_two).
  - reflexivity.
  - exists run_two. exact final_two_reachable.
  - reflexivity.
Defined.


Lemma rerun_log_length_witness :
  length (outfile final_two_again) = length (load_prompts lines_two)
  /\ length (outfile final_two_again) = length (outfile final_two)
  /\ clears cfg_two run_two (init (outfile final_two)) = 1
  /\ (forall e s s', reachable cfg_two (outfile final_two) s -> step cfg_two e s = Some s' ->
        match clear_of e s with
        | O => outfile s `prefix_of` outfile s'
        | S _ => threads s = [] /\ outfile s' = []
        end).
Proof.
  apply (rerun_log_length cfg_two old_log lines_two run_two final_two run_two final_two_again).
  - reflexivity.
  - exact final_two_reachable.
  - reflexivity.
  - exact final_two_again_reachable.
  - reflexivity.
Defined.

Lemma joined_one_reachable : exec cfg_one run_join_early (init []) = Some joined_one.
Proof. vm_compute. reflexivity. Defined.

Lemma join_waits_for_markers_witness :
  queue joined_one = [] /\ unfinished_tasks joined_one = 0
  /\ (forall w, w ∈ threads joined_one -> w = WBreak \/ w = WFinished)
  /\ (exists s', exec cfg_one run_join_early (init []) = Some s'
                /\ joined (pc s') = true /\ threads s' = [WBreak]).
Proof.
  apply (join_waits_for_markers cfg_one [] ["hello"] joined_one).
  - reflexivity.
  - exists run_join_early. exact joined_one_reachable.
  - reflexivity.
Defined.

Lemma writing_one_reachable : exec cfg_one run_to_write (init []) = Some writing_one.
Proof. vm_compute. reflexivity. Defined.

Lemma write_failure_kills_worker_witness :
  exists s', step cfg_one (EWrite 0 false) writing_one = Some s'
    /\ threads s' !! 0 = Some WDied
    /\ outfile s' = outfile writing_one
    /\ file_lock s' = None
    /\ unfinished_tasks s' = unfinished_tasks writing_one
    /\ (forall tr s'', exec cfg_one tr s' = Some s'' ->
          threads s'' !! 0 = Some WDied
          /\ joined (pc s'') = false
          /\ exit_code s'' = None
          /\ length (outfile s'') < length (prompts s'')).
Proof.
  apply (write_failure_kills_worker cfg_one [] writing_one 0 (send_prompt_result "hello" call_ok)).
  - exists run_to_write. exact writing_one_reachable.
  - vm_compute. reflexivity.
Defined.

Lemma config_error_behaviour_witness :
  (exec cfg_missing [EMain] (init old_log) = Some (set_pc MRaised (init old_log))
   /\ exit_code (set_pc MRaised (init old_log)) = Some 1
   /\ (set_pc MRaised (init old_log) = init old_log
       \/ set_pc MRaised (init old_log) = set_pc MRaised (init old_log))
   /\ threads (set_pc MRaised (init old_log)) = []
   /\ outfile (set_pc MRaised (init old_log)) = old_log
   /\ stdout (set_pc MRaised (init old_log)) = [])
  /\ (threads final_blank = []
      /\ (exit_code final_blank = Some 0
          \/ exists s', step cfg_blank EMain final_blank = Some s')
      /\ (pc final_blank = MReturned ->
          exit_code final_blank = Some 0 /\ outfile final_blank = []
          /\ stdout final_blank = [completed_message 0])
      /\ (exists s', exec cfg_blank run_blank (init old_log) = Some s'
           /\ pc s' = MReturned /\ threads s' = []
           /\ exit_code s' = Some 0 /\ outfile s' = []
           /\ stdout s' = [completed_message 0])).
Proof.
  split.
  - apply (proj1 (config_error_behaviour cfg_missing old_log
                    (set_pc MRaised (init old_log))
                    (ex_intro _ [EMain] eq_refl))).
    reflexivity.
  - apply (proj2 (config_error_behaviour cfg_blank old_log final_blank
                    (ex_intro _ run_blank eq_refl)) [""; "   "]).
    + reflexivity.
    + reflexivity.
Defined.

End DispatchFacts.

(** * Further properties of [send_prompt] and of the reading of the prompts *)

Module RecordFacts.
Import Executor Samples.

(** [d.get] of a key that is not there is the default, and of a key that
    is there is the value bound to it. *)
Lemma assoc_get_missing kv key default :
  key ∉ keys kv -> assoc_get kv key default = default.
Proof.
  induction kv as [|[k v] kv IH]; simpl; [done|]. intros Hn.
  destruct (String.eqb_spec k key) as [->|Hne].
  - exfalso. apply Hn. by left.
  - apply IH. intros Hin. apply Hn. by right.
Qed.

Lemma assoc_get_present kv key v default :
  NoDup (keys kv) -> (key, v) ∈ kv -> assoc_get kv key default = v.
Proof.
  induction kv as [|[k w] kv IH]; simpl; intros Hnd Hin.
  - by apply elem_of_nil in Hin.
  - apply NoDup_cons in Hnd as [Hk Hnd].
    apply elem_of_cons in Hin as [E|Hin].
    + inversion E; subst. by rewrite String.eqb_refl.
    + destruct (String.eqb_spec k key) as [->|Hne]; [|by apply IH].
      exfalso. apply Hk. unfold keys. apply list_elem_of_fmap. by exists (key, v).
Qed.

(** A reply with status 200 and a JSON object gives the record of a
    success: the rounded elapsed time, the object itself, and as
    [output_tokens] the value under "eval_count", or the empty string when
    the object has no such key. *)
Theorem success_record p c text kv :
  answer c = Response 200 text (Some (VDict kv)) ->
  NoDup (keys kv) ->
  time_seconds (send_prompt_result p c) = VFloat (round3 (elapsed c))
  /\ response (send_prompt_result p c) = VDict kv
  /\ ("eval_count" ∉ keys kv -> output_tokens (send_prompt_result p c) = VStr "")
  /\ (forall v, ("eval_count", v) ∈ kv -> output_tokens (send_prompt_result p c) = v).
Proof.
  intros Ha Hnd. unfold send_prompt_result. rewrite Ha. simpl.
  split; [done|]. split; [done|]. split.
  - intros Hn. by apply assoc_get_missing.
  - intros v Hv. by apply assoc_get_present.
Qed.

Lemma success_record_witness :
  time_seconds (send_prompt_result "hi" call_ok) = VFloat (round3 (elapsed call_ok))
  /\ response (send_prompt_result "hi" call_ok)
     = VDict [("response", VStr "Paris"); ("eval_count", VInt 7)]
  /\ ("eval_count" ∉ keys [("response", VStr "Paris"); ("eval_count", VInt 7)] ->
      output_tokens (send_prompt_result "hi" call_ok) = VStr "")
  /\ (forall v, ("eval_count", v) ∈ [("response", VStr "Paris"); ("eval_count", VInt 7)] ->
      output_tokens (send_prompt_result "hi" call_ok) = v).
Proof.
  apply (success_record "hi" call_ok "{...}").
  - reflexivity.
  - unfold keys. simpl. apply NoDup_cons. split.
    + intros H. apply elem_of_cons in H as [H|H]; [discriminate|].
      by apply elem_of_nil in H.
    + apply NoDup_cons. split; [apply not_elem_of_nil|apply NoDup_nil_2].
Defined.

(** [time_seconds] is a number exactly for a success, and for every other
    reply it is one of the two sentinel strings: the reader of the file
    can tell a success from a failure by the type of the field. *)
Theorem time_is_number_iff_success p c :
  ((exists q, time_seconds (send_prompt_result p c) = VFloat q)
   <-> classify (answer c) = Success)
  /\ (classify (answer c) = Success ->
      time_seconds (send_prompt_result p c) = VFloat (round3 (elapsed c)))
  /\ (classify (answer c) <> Success ->
      time_seconds (send_prompt_result p c) = VStr "ERROR"
      \/ time_seconds (send_prompt_result p c) = VStr "TIMEOUT").
Proof.
  unfold send_prompt_result, classify.
  destruct (answer c) as [code text body| |msg]; simpl.
  - destruct (negb (code =? 200)%Z); simpl.
    + split; [split; [intros [? ?]; done|done]|]. split; [done|auto].
    + destruct body as [[]|]; simpl;
        (split; [split; [intros [? ?]; done|done || eauto]|]);
        (split; [done|]); intros H; auto; done.
  - split; [split; [intros [? ?]; done|done]|]. split; [done|auto].
  - split; [split; [intros [? ?]; done|done]|]. split; [done|auto].
Qed.

Lemma time_is_number_iff_success_witness :
  time_seconds (send_prompt_result "hi" call_500) = VStr "ERROR"
  \/ time_seconds (send_prompt_result "hi" call_500) = VStr "TIMEOUT".
Proof.
  apply (proj2 (proj2 (time_is_number_iff_success "hi" call_500))). discriminate.
Defined.

(** A record of a failure carries one sentinel, the same in
    [time_seconds] and in [output_tokens], and its [response] is a string
    or [None], never a JSON object. *)
Theorem failure_record_sentinels p c :
  classify (answer c) <> Success ->
  time_seconds (send_prompt_result p c) = output_tokens (send_prompt_result p c)
  /\ (time_seconds (send_prompt_result p c) = VStr "ERROR"
      \/ time_seconds (send_prompt_result p c) = VStr "TIMEOUT")
  /\ (response (send_prompt_result p c) = VNone
      \/ exists t, response (send_prompt_result p c) = VStr t).
Proof.
  unfold send_prompt_result, classify.
  destruct (answer c) as [code text body| |msg]; simpl.
  - destruct (negb (code =? 200)%Z); simpl; [eauto 6|].
    destruct body as [[]|]; simpl; intros H; try done; eauto 6.
  - eauto 6.
  - eauto 6.
Qed.

Lemma failure_record_sentinels_witness :
  time_seconds (send_prompt_result "hi" call_500) = output_tokens (send_prompt_result "hi" call_500)
  /\ (time_seconds (send_prompt_result "hi" call_500) = VStr "ERROR"
      \/ time_seconds (send_prompt_result "hi" call_500) = VStr "TIMEOUT")
  /\ (response (send_prompt_result "hi" call_500) = VNone
      \/ exists t, response (send_prompt_result "hi" call_500) = VStr t).
Proof. apply (failure_record_sentinels "hi" call_500). discriminate. Defined.

(** Whatever the reply, the record carries the prompt as it was given and
    the two readings of the clock in the fixed format. *)
Theorem record_keeps_prompt_and_times p c :
  prompt (send_prompt_result p c) = p
  /\ start_time_utc (send_prompt_result p c) = strftime (start_dt c)
  /\ end_time_utc (send_prompt_result p c) = strftime (end_dt c).
Proof.
  unfold send_prompt_result.
  destruct (answer c) as [code text body| |msg]; try done.
  destruct (negb _); [done|]. destruct body as [data|]; [|done].
  by destruct (py_get data _ _).
Qed.

End RecordFacts.

Module PromptFacts.

Example strip_nbsp :
  load_prompts [nbsp; (nbsp ++ "a b" ++ emsp ++ " ")%string; "  c"] = ["a b"; "c"].
Proof. vm_compute. reflexivity. Qed.

(** *** Trimming a list of units *)

Lemma ltrim_ltrim l : ltrim (ltrim l) = ltrim l.
Proof.
  induction l as [|t l IH]; simpl; [done|].
  destruct (ws t) eqn:E; [done|]. simpl. by rewrite E.
Qed.

Lemma rtrim_rtrim l : rtrim (rtrim l) = rtrim l.
Proof.
  induction l as [|t l IH]; simpl; [done|].
  destruct (rtrim l) as [|u r] eqn:E.
  - destruct (ws t) eqn:Et; simpl; [done|]. by rewrite Et.
  - remember (u :: r) as v. simpl. rewrite IH. by subst v.
Qed.

(** The two ends are trimmed independently of each other. *)
Lemma rtrim_ltrim l : rtrim (ltrim l) = ltrim (rtrim l).
Proof.
  induction l as [|t l IH]; simpl; [done|].
  destruct (ws t) eqn:Et.
  - rewrite IH. destruct (rtrim l) as [|u r] eqn:E; simpl; [done|]. by rewrite Et.
  - simpl. destruct (rtrim l) as [|u r] eqn:E; simpl; by rewrite Et.
Qed.

Lemma rtrim_nil l : rtrim l = [] <-> forallb ws l = true.
Proof.
  induction l as [|t l IH]; simpl; [done|].
  destruct (rtrim l) as [|u r] eqn:E.
  - destruct (ws t); simpl; [by rewrite <- IH|]. split; done.
  - split; [done|]. intros H. apply andb_true_iff in H as [_ H].
    apply IH in H. done.
Qed.

Lemma ltrim_nil l : ltrim l = [] <-> forallb ws l = true.
Proof.
  induction l as [|t l IH]; simpl; [done|].
  destruct (ws t); simpl; [done|]. split; done.
Qed.

Lemma ltrim_is_drop l : exists k, ltrim l = drop k l.
Proof.
  induction l as [|t l [k IH]]; simpl; [by exists 0|].
  destruct (ws t); [by exists (S k)|by exists 0].
Qed.

Lemma rtrim_is_take l : exists k, rtrim l = take k l.
Proof.
  induction l as [|t l [k IH]]; simpl; [by exists 0|].
  destruct (rtrim l) as [|u r] eqn:E.
  - destruct (ws t); [by exists 0|by exists 1].
  - exists (S k). simpl. by rewrite <- IH.
Qed.

(** *** Cutting a text into units *)

Ltac bytes H :=
  repeat first [ rewrite andb_true_iff in H | rewrite orb_true_iff in H
               | rewrite Nat.eqb_eq in H | rewrite Nat.leb_le in H ].

Lemma space2_not_space a b : space2 a b = true -> is_space a = false.
Proof.
  unfold space2, is_space, byte_is, byte_in. intros H.
  apply not_true_is_false. intros H'. cbv zeta in H'. bytes H. bytes H'. lia.
Qed.

Lemma space3_not_space a b c :
  space3 a b c = true -> is_space a = false /\ space2 a b = false.
Proof.
  unfold space3, space2, is_space, byte_is, byte_in. intros H. bytes H.
  split; apply not_true_is_false; intros H'; cbv zeta in H'; bytes H'; lia.
Qed.

Lemma append_assoc (s1 s2 s3 : string) :
  ((s1 ++ s2) ++ s3 = s1 ++ (s2 ++ s3))%string.
Proof.
  induction s1 as [|a s1 IH]; [done|].
  change (String a ((s1 ++ s2) ++ s3) = String a (s1 ++ (s2 ++ s3)))%string.
  by rewrite IH.
Qed.

Lemma unchars_app l1 l2 : unchars (l1 ++ l2) = (unchars l1 ++ unchars l2)%string.
Proof.
  induction l1 as [|t l1 IH]; [done|].
  change (unchars ((t :: l1) ++ l2)) with (t ++ unchars (l1 ++ l2))%string.
  rewrite IH. change (unchars (t :: l1)) with (t ++ unchars l1)%string.
  by rewrite append_assoc.
Qed.

(** One step of [chars]. *)
Lemma chars_eq s :
  chars s =
    match s with
    | EmptyString => []
    | String a s1 =>
        if is_space a then String a EmptyString :: chars s1
        else
          match s1 with
          | String b s2 =>
              if space2 a b then String a (String b EmptyString) :: chars s2
              else
                match s2 with
                | String c s3 =>
                    if space3 a b c
                    then String a (String b (String c EmptyString)) :: chars s3
                    else String a EmptyString :: chars s1
                | EmptyString => String a EmptyString :: chars s1
                end
          | EmptyString => String a EmptyString :: chars s1
          end
    end.
Proof. destruct s; reflexivity. Qed.

Ltac finish_first := repeat split; try done; try (simpl; lia); auto.

(** The first unit of a text, and the text after it. *)
Lemma chars_first a s1 :
  exists t s', chars (String a s1) = t :: chars s'
    /\ String a s1 = (t ++ s')%string
    /\ String.length s' <= String.length s1
    /\ (ws t = true \/ t = String a EmptyString).
Proof.
  rewrite chars_eq.
  destruct (is_space a) eqn:Ea.
  { exists (String a EmptyString), s1. simpl. rewrite Ea. finish_first. }
  destruct s1 as [|b s2].
  { exists (String a EmptyString), EmptyString. simpl. finish_first. }
  destruct (space2 a b) eqn:E2.
  { exists (String a (String b EmptyString)), s2. simpl. rewrite E2. finish_first. }
  destruct s2 as [|c s3].
  { exists (String a EmptyString), (String b EmptyString). simpl. finish_first. }
  destruct (space3 a b c) eqn:E3.
  { exists (String a (String b (String c EmptyString))), s3. simpl. rewrite E3. finish_first. }
  exists (String a EmptyString), (String b (String c s3)). simpl. finish_first.
Qed.

Lemma unchars_chars s : unchars (chars s) = s.
Proof.
  assert (forall n s, String.length s <= n -> unchars (chars s) = s) as H.
  { clear s. induction n as [|n IH]; intros s Hn.
    - destruct s; [done|simpl in Hn; lia].
    - destruct s as [|a s1]; [done|].
      destruct (chars_first a s1) as (t & s' & -> & -> & Hl & _).
      change (t ++ unchars (chars s') = t ++ s')%string.
      rewrite IH; [done|]. simpl in Hn. lia. }
  by apply (H (String.length s)).
Qed.

Lemma chars_cons s t ts :
  chars s = t :: ts ->
  exists s', s = (t ++ s')%string /\ ts = chars s'
             /\ (ws t = true \/ exists a, t = String a EmptyString).
Proof.
  destruct s as [|a s1]; [done|].
  destruct (chars_first a s1) as (t' & s' & -> & Hs & _ & Ht).
  intros E. inversion E; subst. exists s'. split; [done|]. split; [done|].
  destruct Ht as [Ht|Ht]; eauto.
Qed.

(** A whitespace character is a unit whatever follows it. *)
Lemma chars_ws t s : ws t = true -> chars (t ++ s) = t :: chars s.
Proof.
  destruct t as [|a [|b [|c [|d t]]]]; simpl; try done.
  - by intros ->.
  - intros H. by rewrite (space2_not_space _ _ H), H.
  - intros H. destruct (space3_not_space _ _ _ H) as [-> ->]. by rewrite H.
Qed.

(** A byte that is a unit by itself stays one when the text is cut short
    behind it. *)
Lemma chars_byte a y z :
  chars (String a (y ++ z)) = String a EmptyString :: chars (y ++ z)%string ->
  ws (String a EmptyString) = false ->
  chars (String a y) = String a EmptyString :: chars y.
Proof.
  simpl. intros H Ha. rewrite Ha in *.
  destruct y as [|b [|c y]]; simpl in *; [done|..].
  - destruct (space2 a b); [|done]. inversion H.
  - destruct (space2 a b); [inversion H|].
    destruct (space3 a b c); [inversion H|]. done.
Qed.

(** The units of a text that is given by some of its units, taken from
    the end or from the start, are these units. *)
Lemma chars_drop l : forall s k, chars s = l -> chars (unchars (drop k l)) = drop k l.
Proof.
  induction l as [|t l IH]; intros s k Hs.
  - by rewrite drop_nil.
  - destruct (chars_cons _ _ _ Hs) as (s' & -> & Hl & _).
    destruct k as [|k].
    + rewrite drop_0, <- Hs. by rewrite unchars_chars.
    + by apply (IH s').
Qed.

Lemma chars_take l : forall s k, chars s = l -> chars (unchars (take k l)) = take k l.
Proof.
  induction l as [|t l IH]; intros s k Hs.
  - by rewrite take_nil.
  - destruct (chars_cons _ _ _ Hs) as (s' & -> & Hl & Ht).
    destruct k as [|k]; simpl; [done|].
    specialize (IH s' k (eq_sym Hl)).
    change (chars (t ++ unchars (take k l))%string = t :: take k l).
    destruct (ws t) eqn:Ew.
    { by rewrite chars_ws, IH. }
    destruct Ht as [Ht|[a ->]]; [congruence|].
    rewrite <- IH at 2. apply (chars_byte a _ (unchars (drop k l))); [|done].
    rewrite <- unchars_app, take_drop. rewrite Hl, unchars_chars.
    change (String a EmptyString ++ s')%string with (String a s') in Hs.
    by rewrite Hs, Hl.
Qed.

Lemma chars_lstrip s : chars (lstrip s) = ltrim (chars s).
Proof.
  unfold lstrip. destruct (ltrim_is_drop (chars s)) as [k ->].
  by apply (chars_drop _ s).
Qed.

Lemma chars_rstrip s : chars (rstrip s) = rtrim (chars s).
Proof.
  unfold rstrip. destruct (rtrim_is_take (chars s)) as [k ->].
  by apply (chars_take _ s).
Qed.

Lemma chars_nil s : chars s = [] <-> s = EmptyString.
Proof.
  split; [|by intros ->]. intros H. by rewrite <- (unchars_chars s), H.
Qed.

(** *** [strip] *)

Lemma lstrip_lstrip s : lstrip (lstrip s) = lstrip s.
Proof. unfold lstrip at 1. by rewrite chars_lstrip, ltrim_ltrim. Qed.

Lemma rstrip_rstrip s : rstrip (rstrip s) = rstrip s.
Proof. unfold rstrip at 1. by rewrite chars_rstrip, rtrim_rtrim. Qed.

Lemma rstrip_lstrip s : rstrip (lstrip s) = lstrip (rstrip s).
Proof.
  unfold rstrip at 1. unfold lstrip at 2.
  by rewrite chars_lstrip, chars_rstrip, rtrim_ltrim.
Qed.

Lemma strip_strip s : strip (strip s) = strip s.
Proof.
  unfold strip. by rewrite rstrip_lstrip, rstrip_rstrip, lstrip_lstrip.
Qed.

Lemma rstrip_all_space s : rstrip s = EmptyString <-> all_space s = true.
Proof.
  unfold all_space. rewrite <- rtrim_nil, <- chars_rstrip. by rewrite chars_nil.
Qed.

Lemma lstrip_empty s : lstrip s = EmptyString <-> all_space s = true.
Proof.
  unfold all_space. rewrite <- ltrim_nil, <- chars_lstrip. by rewrite chars_nil.
Qed.

Lemma rstrip_keeps_space s : all_space (rstrip s) = true -> all_space s = true.
Proof.
  intros H. apply rstrip_all_space. apply rstrip_all_space in H.
  by rewrite rstrip_rstrip in H.
Qed.

Lemma strip_of_blank s : all_space s = true -> strip s = EmptyString.
Proof. intros H. unfold strip. apply rstrip_all_space in H. by rewrite H. Qed.

(** [line.strip()] is empty exactly for a line of whitespace characters,
    of one byte or more (the empty line included): these are the lines
    the list comprehension leaves out. *)
Theorem strip_empty_iff_blank s : strip s = EmptyString <-> all_space s = true.
Proof.
  unfold strip. rewrite lstrip_empty. split.
  - apply rstrip_keeps_space.
  - intros H. apply rstrip_all_space in H. by rewrite H.
Qed.

Lemma load_prompts_cons l lines :
  load_prompts (l :: lines) =
    if truthy (strip l) then strip l :: load_prompts lines else load_prompts lines.
Proof.
  unfold load_prompts. rewrite fmap_cons.
  destruct (truthy (strip l)) eqn:E.
  - by rewrite filter_cons_True.
  - rewrite filter_cons_False; [done|]. by rewrite E.
Qed.

Lemma truthy_not_empty s : truthy s = true <-> s <> EmptyString.
Proof. destruct s; simpl; split; done. Qed.

Lemma ltrim_head l t l' : ltrim l = t :: l' -> ws t = false.
Proof.
  induction l as [|u l IH]; simpl; [done|].
  destruct (ws u) eqn:E; [done|]. intros H. by inversion H; subst.
Qed.

Lemma rtrim_last l l' t : rtrim l = (l' ++ [t])%list -> ws t = false.
Proof.
  revert l'. induction l as [|u l IH]; intros l'; simpl.
  - by destruct l'.
  - destruct (rtrim l) as [|v r] eqn:E.
    + destruct (ws u) eqn:Eu; [by destruct l'|].
      destruct l' as [|x [|y l']]; simpl; intros H; inversion H; by subst.
    + destruct l' as [|x l']; simpl; intros H; inversion H; subst.
      by apply (IH l').
Qed.

(** Every prompt that is loaded comes from a line of the file, is not
    empty, and has no whitespace at either end: stripping it again on
    the left or on the right changes nothing, and neither its first
    character nor its last is a whitespace character. *)
Theorem loaded_prompt_is_clean lines p :
  p ∈ load_prompts lines ->
  (exists l, l ∈ lines /\ p = strip l)
  /\ p <> EmptyString /\ lstrip p = p /\ rstrip p = p
  /\ (forall t l, chars p = t :: l -> ws t = false)
  /\ (forall l t, chars p = (l ++ [t])%list -> ws t = false).
Proof.
  unfold load_prompts. intros H.
  apply list_elem_of_filter in H as [Ht H].
  apply list_elem_of_fmap in H as (l & -> & Hl).
  assert (rstrip (strip l) = strip l) as Hrs
    by (unfold strip; by rewrite rstrip_lstrip, rstrip_rstrip).
  split; [by exists l|]. split; [by apply truthy_not_empty|].
  split; [unfold strip; apply lstrip_lstrip|]. split; [done|].
  split.
  - intros t l'. unfold strip. rewrite chars_lstrip. apply ltrim_head.
  - intros l' t. rewrite <- Hrs, chars_rstrip. apply rtrim_last.
Qed.

Lemma loaded_prompt_is_clean_witness :
  (exists l, l ∈ [(nbsp ++ " a b" ++ emsp)%string; nbsp; "c"] /\ "a b" = strip l)
  /\ "a b" <> EmptyString /\ lstrip "a b" = "a b" /\ rstrip "a b" = "a b"
  /\ (forall t l, chars "a b" = t :: l -> ws t = false)
  /\ (forall l t, chars "a b" = (l ++ [t])%list -> ws t = false).
Proof.
  apply (loaded_prompt_is_clean [(nbsp ++ " a b" ++ emsp)%string; nbsp; "c"] "a b").
  vm_compute. apply list_elem_of_here.
Defined.

(** Reading a file that holds the loaded prompts, one per line, gives
    the same prompts again. *)
Theorem load_prompts_idempotent lines :
  load_prompts (load_prompts lines) = load_prompts lines.
Proof.
  induction lines as [|l lines IH]; [done|].
  rewrite load_prompts_cons. destruct (truthy (strip l)) eqn:E; [|done].
  rewrite load_prompts_cons, strip_strip, E. by rewrite IH.
Qed.

(** The prompts keep the order of the lines, and a line of whitespace
    between them changes nothing. *)
Theorem load_prompts_skips_blank lines1 blank lines2 :
  all_space blank = true ->
  load_prompts (lines1 ++ blank :: lines2) = (load_prompts lines1 ++ load_prompts lines2)%list.
Proof.
  intros Hb. apply strip_of_blank in Hb.
  induction lines1 as [|l lines1 IH]; simpl.
  - rewrite load_prompts_cons, Hb. done.
  - rewrite !load_prompts_cons. destruct (truthy (strip l)); by rewrite IH.
Qed.

Lemma load_prompts_skips_blank_witness :
  load_prompts (["a"] ++ (nbsp ++ " " ++ emsp)%string :: ["b"])
  = (load_prompts ["a"] ++ load_prompts ["b"])%list.
Proof.
  apply (load_prompts_skips_blank ["a"] (nbsp ++ " " ++ emsp)%string ["b"]).
  vm_compute. reflexivity.
Defined.

(** Characters of more than one byte that are no whitespace stay: the
    zero-width space U+200B, and a letter with an accent. *)
Example strip_keeps_other_characters :
  let zwsp := String (ascii_of_nat 226) (String (ascii_of_nat 128)
                (String (ascii_of_nat 139) EmptyString)) in
  let e_acute := String (ascii_of_nat 195) (String (ascii_of_nat 169) EmptyString) in
  strip (" " ++ zwsp ++ " ")%string = zwsp
  /\ strip (nbsp ++ e_acute ++ emsp)%string = e_acute
  /\ all_space zwsp = false.
Proof. by vm_compute. Qed.

Example blank_lines : all_space nbsp = true /\ all_space "" = true
  /\ all_space (emsp ++ "x")%string = false.
Proof. by vm_compute. Qed.

End PromptFacts.

(** * Further properties of [worker] and [main] *)

Module ProgressFacts.
Import Executor Dispatch Samples Progress DispatchFacts.
#[local] Open Scope list_scope.

(** The lock is held exactly by the thread inside the with-statement of
    lines 80-82, so no two threads are inside it at once. *)
Theorem lock_held_by_the_writer cfg log0 s :
  reachable cfg log0 s ->
  (forall i, file_lock s = Some i <-> exists r, threads s !! i = Some (WWrite r))
  /\ (forall i j r r', threads s !! i = Some (WWrite r) ->
        threads s !! j = Some (WWrite r') -> i = j).
Proof.
  intros Hr. split.
  - destruct (run_inv_reachable _ _ _ Hr) as [->|[[_ ->]|(lines & _ & Hinv)]].
    + intros i. simpl. split; [done|]. intros [r H]. by rewrite lookup_nil in H.
    + intros i. simpl. split; [done|]. intros [r H]. by rewrite lookup_nil in H.
    + apply (inv_lock _ _ _ _ Hinv).
  - intros i j r r'. by apply one_writer with cfg log0.
Qed.

Lemma lock_held_by_the_writer_witness :
  (forall i, file_lock writing_one = Some i
     <-> exists r, threads writing_one !! i = Some (WWrite r))
  /\ (forall i j r r', threads writing_one !! i = Some (WWrite r) ->
        threads writing_one !! j = Some (WWrite r') -> i = j).
Proof.
  apply (lock_held_by_the_writer cfg_one []).
  exists run_to_write. exact writing_one_reachable.
Defined.

Lemma died_zero (l : list wstate) : tsum died l = 0 <-> WDied ∉ l.
Proof.
  induction l as [|w l IH]; unfold tsum in *; simpl.
  - split; [intros _; apply not_elem_of_nil|done].
  - rewrite not_elem_of_cons. destruct w; simpl; rewrite <- ?IH; split;
      try lia; try (intros [? ?]; done); try (intros ?; split; [done|lia]).
Qed.

(** A step that is no failed write kills no thread: [task_done] is never
    called more often than [put]. *)
Lemma step_keeps_alive cfg log0 e s s' :
  reachable cfg log0 s -> step cfg e s = Some s' ->
  (forall i, e <> EWrite i false) ->
  tsum died (threads s) = 0 -> tsum died (threads s') = 0.
Proof.
  intros Hr Hs He Hd.
  assert (forall i w, threads s !! i = Some w -> pending w = 1 ->
            1 <= unfinished_tasks s) as Hpos.
  { intros i w Hi Hw.
    destruct (run_inv_reachable _ _ _ Hr) as [->|[[_ ->]|(lines & _ & Hinv)]];
      try (simpl in Hi; by rewrite lookup_nil in Hi).
    pose proof (inv_unfinished _ _ _ _ Hinv).
    pose proof (tsum_lookup pending _ _ _ Hi). lia. }
  destruct e as [|i|i c|i ok]; simpl in Hs.
  - unfold main_step in Hs.
    destruct (pc s) as [| |[|k]|[|p rest]|[|k]| | | |] eqn:Hpc; try done.
    1: destruct (prompt_file cfg).
    10: destruct (unfinished_tasks s); [|done].
    all: inversion Hs; subst s'; simpl; try done.
    rewrite tsum_snoc. simpl. lia.
  - unfold worker_step, task_done in Hs.
    destruct (threads s !! i) as [w|] eqn:Hi; [|done].
    pose proof (Hpos i w Hi) as Hp.
    destruct w; try done.
    + destruct (queue s) as [|[p|] q]; inversion Hs; subst s'; simpl.
      * pose proof (tsum_insert died _ _ _ (WPost p) Hi). simpl in *. lia.
      * pose proof (tsum_insert died _ _ _ WStop Hi). simpl in *. lia.
    + destruct (file_lock s); inversion Hs; subst s'; simpl.
      pose proof (tsum_insert died _ _ _ (WWrite r) Hi). simpl in *. lia.
    + specialize (Hp eq_refl).
      destruct (unfinished_tasks s); [lia|]. inversion Hs; subst s'; simpl.
      pose proof (tsum_insert died _ _ _ WGet Hi). simpl in *. lia.
    + specialize (Hp eq_refl).
      destruct (unfinished_tasks s); [lia|]. inversion Hs; subst s'; simpl.
      pose proof (tsum_insert died _ _ _ WBreak Hi). simpl in *. lia.
    + inversion Hs; subst s'; simpl.
      pose proof (tsum_insert died _ _ _ WFinished Hi). simpl in *. lia.
  - unfold post_step in Hs.
    destruct (threads s !! i) as [w|] eqn:Hi; [|done]. destruct w; try done.
    inversion Hs; subst s'; simpl.
    pose proof (tsum_insert died _ _ _ (WAcquire (send_prompt_result p c)) Hi).
    simpl in *. lia.
  - unfold write_step in Hs.
    destruct (threads s !! i) as [w|] eqn:Hi; [|done]. destruct w; try done.
    destruct ok; [|by destruct (He i)]. inversion Hs; subst s'; simpl.
    pose proof (tsum_insert died _ _ _ WTaskDone Hi). simpl in *. lia.
Qed.

(** As long as every write succeeds no thread is left by an exception: in
    particular [task_done] never raises its [ValueError]. *)
Theorem threads_survive cfg log0 tr s :
  writes_succeed tr ->
  exec cfg tr (init log0) = Some s ->
  WDied ∉ threads s.
Proof.
  intros Hw Hs. apply died_zero. revert s Hw Hs.
  induction tr as [|e tr IH] using rev_ind; intros s Hw Hs.
  - inversion Hs. done.
  - rewrite exec_snoc in Hs.
    destruct (exec cfg tr (init log0)) as [s0|] eqn:E0; [|done]. simpl in Hs.
    eapply (step_keeps_alive cfg log0 e s0 s); [by exists tr|done| |].
    + intros i ->. apply (Hw i). apply elem_of_app. right. apply list_elem_of_here.
    + apply IH; [|done]. intros i Hi. apply (Hw i). apply elem_of_app. by left.
Qed.

Lemma threads_survive_witness : WDied ∉ threads final_two.
Proof.
  apply (threads_survive cfg_two old_log run_two final_two).
  - intros i Hi. vm_compute in Hi.
    repeat (apply elem_of_cons in Hi as [Hi|Hi]; [discriminate|]).
    by apply elem_of_nil in Hi.
  - exact final_two_reachable.
Defined.

(** Every step uses up one of the steps that are left. *)
Lemma step_decreases cfg e s s' :
  step cfg e s = Some s' -> steps_left cfg s' < steps_left cfg s.
Proof.
  intros Hs. unfold steps_left, main_rem.
  destruct e as [|i|i c|i ok]; simpl in Hs.
  - unfold main_step in Hs.
    destruct (pc s) as [| |[|k]|[|p rest]|[|k]| | | |] eqn:Hpc; try done.
    1: destruct (prompt_file cfg).
    10: destruct (unfinished_tasks s); [|done].
    all: inversion Hs; subst s'; simpl;
      rewrite ?tsum_snoc, ?sum_list_with_app, ?length_app; simpl; lia.
  - unfold worker_step, task_done in Hs.
    destruct (threads s !! i) as [w|] eqn:Hi; [|done].
    destruct w; try done.
    + destruct (queue s) as [|[p|] q]; inversion Hs; subst s'; simpl;
        rewrite length_insert.
      * pose proof (tsum_insert thread_rem _ _ _ (WPost p) Hi). simpl in *. lia.
      * pose proof (tsum_insert thread_rem _ _ _ WStop Hi). simpl in *. lia.
    + destruct (file_lock s); inversion Hs; subst s'; simpl; rewrite length_insert.
      pose proof (tsum_insert thread_rem _ _ _ (WWrite r) Hi). simpl in *. lia.
    + destruct (unfinished_tasks s); inversion Hs; subst s'; simpl;
        rewrite length_insert.
      * pose proof (tsum_insert thread_rem _ _ _ WDied Hi). simpl in *. lia.
      * pose proof (tsum_insert thread_rem _ _ _ WGet Hi). simpl in *. lia.
    + destruct (unfinished_tasks s); inversion Hs; subst s'; simpl;
        rewrite length_insert.
      * pose proof (tsum_insert thread_rem _ _ _ WDied Hi). simpl in *. lia.
      * pose proof (tsum_insert thread_rem _ _ _ WBreak Hi). simpl in *. lia.
    + inversion Hs; subst s'; simpl; rewrite length_insert.
      pose proof (tsum_insert thread_rem _ _ _ WFinished Hi). simpl in *. lia.
  - unfold post_step in Hs.
    destruct (threads s !! i) as [w|] eqn:Hi; [|done]. destruct w; try done.
    inversion Hs; subst s'; simpl; rewrite length_insert.
    pose proof (tsum_insert thread_rem _ _ _ (WAcquire (send_prompt_result p c)) Hi).
    simpl in *. lia.
  - unfold write_step in Hs.
    destruct (threads s !! i) as [w|] eqn:Hi; [|done]. destruct w; try done.
    destruct ok; inversion Hs; subst s'; simpl; rewrite length_insert.
    + pose proof (tsum_insert thread_rem _ _ _ WTaskDone Hi). simpl in *. lia.
    + pose proof (tsum_insert thread_rem _ _ _ WDied Hi). simpl in *. lia.
Qed.

Lemma exec_decreases cfg tr s s' :
  exec cfg tr s = Some s' -> length tr + steps_left cfg s' <= steps_left cfg s.
Proof.
  revert s. induction tr as [|e tr IH]; intros s Hs; simpl in Hs.
  - inversion Hs. simpl. lia.
  - destruct (step cfg e s) as [s1|] eqn:E; [|done].
    pose proof (step_decreases _ _ _ _ E). specialize (IH _ Hs). simpl. lia.
Qed.

(** The run is finite.  Whatever the order in which the threads run and
    whatever the endpoint and the file system do, a schedule over N
    prompts and a pool of W threads has at most 6N + 5W + 7 steps; without
    a prompt file it has at most one. *)
Theorem schedule_is_bounded cfg log0 tr s :
  exec cfg tr (init log0) = Some s ->
  length tr <=
    match prompt_file cfg with
    | None => 1
    | Some lines =>
        let N := length (load_prompts lines) in
        6 * N + 5 * Nat.min (max_threads cfg) N + 7
    end.
Proof.
  intros Hs. pose proof (exec_decreases _ _ _ _ Hs) as H.
  unfold steps_left at 2 in H. unfold main_rem in H. simpl in H.
  destruct (prompt_file cfg); simpl in *; lia.
Qed.

Lemma schedule_is_bounded_witness :
  length run_two <=
    match prompt_file cfg_two with
    | None => 1
    | Some lines =>
        let N := length (load_prompts lines) in
        6 * N + 5 * Nat.min (max_threads cfg_two) N + 7
    end.
Proof. apply (schedule_is_bounded cfg_two old_log run_two final_two). exact final_two_reachable. Defined.

Example run_two_uses_all_steps : length run_two = 6 * 2 + 5 * 2 + 7.
Proof. reflexivity. Qed.

(** ** The order of the queue and the absence of deadlock *)

Lemma nones_shape (xs : list string) m :
  nones ((Some <$> xs) ++ replicate m None) = m.
Proof.
  unfold nones. rewrite sum_list_with_app.
  assert (sum_list_with is_marker (Some <$> xs) = 0) as ->
    by (induction xs; simpl; done).
  induction m as [|m IH]; simpl; [done|]. simpl in IH. lia.
Qed.

Lemma somes_shape (xs : list string) m :
  somes ((Some <$> xs) ++ replicate m None) = xs.
Proof.
  unfold somes. rewrite omap_app.
  assert (omap id (replicate m (@None string)) = []) as ->
    by (induction m; simpl; done).
  rewrite app_nil_r. induction xs as [|x xs IH]; [done|].
  rewrite fmap_cons. simpl. f_equal. exact IH.
Qed.

Lemma fifo_step cfg e s s' :
  (forall p rest, pc s = MPut (p :: rest) ->
     nones (queue s) = 0 /\ tsum consumed (threads s) = 0) ->
  fifo s -> step cfg e s = Some s' -> fifo s'.
Proof.
  intros Hput (xs & m & Hq & Hc) Hs.
  destruct e as [|i|i c|i ok]; simpl in Hs.
  - unfold main_step in Hs.
    destruct (pc s) as [| |[|k]|[|p rest]|[|k]| | | |] eqn:Hpc; try done.
    1: destruct (prompt_file cfg).
    10: destruct (unfinished_tasks s); [|done].
    all: inversion Hs; subst s'; clear Hs; unfold fifo; simpl.
    all: try (exists xs, m; split; [done|]; rewrite ?tsum_snoc; simpl;
              intros H; specialize (Hc H); lia).
    + destruct (Hput p rest eq_refl) as [Hn Hz].
      rewrite Hq, nones_shape in Hn. subst m.
      exists (xs ++ [p]), 0. split; [|done].
      rewrite Hq. simpl. by rewrite !app_nil_r, fmap_app.
    + exists xs, (S m). split; [|done].
      rewrite Hq, replicate_S_end. by rewrite app_assoc.
  - unfold worker_step, task_done in Hs.
    destruct (threads s !! i) as [w|] eqn:Hi; [|done].
    pose proof (tsum_lookup consumed _ _ _ Hi) as Hle.
    destruct w; try done.
    + rewrite Hq in Hs. destruct xs as [|x xs]; [destruct m as [|m]|]; simpl in Hs.
      * done.
      * inversion Hs; subst s'. exists [], m. split; [done|]. done.
      * inversion Hs; subst s'. exists xs, m. split; [done|]. simpl. intros Hx.
        pose proof (tsum_insert consumed _ _ _ (WPost x) Hi) as H. simpl in H.
        assert (tsum consumed (threads s) = 0) by (by apply Hc). lia.
    + destruct (file_lock s); inversion Hs; subst s'. exists xs, m.
      split; [done|]. simpl. intros Hx.
      pose proof (tsum_insert consumed _ _ _ (WWrite r) Hi) as H. simpl in H.
      specialize (Hc Hx). lia.
    + destruct (unfinished_tasks s); inversion Hs; subst s'; exists xs, m;
        (split; [done|]); simpl; intros Hx; specialize (Hc Hx).
      * pose proof (tsum_insert consumed _ _ _ WDied Hi) as H. simpl in H. lia.
      * pose proof (tsum_insert consumed _ _ _ WGet Hi) as H. simpl in H. lia.
    + destruct (unfinished_tasks s); inversion Hs; subst s'; exists xs, m;
        (split; [done|]); simpl; intros Hx; specialize (Hc Hx); simpl in Hle; lia.
    + inversion Hs; subst s'. exists xs, m. split; [done|]. simpl. intros Hx.
      specialize (Hc Hx). simpl in Hle. lia.
  - unfold post_step in Hs.
    destruct (threads s !! i) as [w|] eqn:Hi; [|done]. destruct w; try done.
    inversion Hs; subst s'. exists xs, m. split; [done|]. simpl. intros Hx.
    pose proof (tsum_insert consumed _ _ _ (WAcquire (send_prompt_result p c)) Hi) as H.
    simpl in H. specialize (Hc Hx). lia.
  - unfold write_step in Hs.
    destruct (threads s !! i) as [w|] eqn:Hi; [|done]. destruct w; try done.
    destruct ok; inversion Hs; subst s'; exists xs, m; (split; [done|]); simpl;
      intros Hx; specialize (Hc Hx).
    + pose proof (tsum_insert consumed _ _ _ WTaskDone Hi) as H. simpl in H. lia.
    + pose proof (tsum_insert consumed _ _ _ WDied Hi) as H. simpl in H. lia.
Qed.

Lemma reachable_fifo cfg log0 s : reachable cfg log0 s -> fifo s.
Proof.
  apply reachable_ind.
  - exists [], 0. done.
  - intros e s0 s' Hr Hf Hs. eapply fifo_step; [|exact Hf|exact Hs].
    intros p rest Hpc.
    destruct (run_inv_reachable _ _ _ Hr) as [->|[[_ ->]|(lines & _ & Hinv)]];
      try done.
    pose proof (inv_markers _ _ _ _ Hinv) as H. rewrite Hpc in H. simpl in H. lia.
Qed.

Lemma exists_positive f (l : list wstate) :
  0 < tsum f l -> exists i w, l !! i = Some w /\ 0 < f w.
Proof.
  induction l as [|w l IH]; unfold tsum in *; simpl; [lia|]. intros H.
  destruct (f w) as [|n] eqn:E.
  - destruct IH as (i & w' & Hi & Hw); [lia|]. by exists (S i), w'.
  - exists 0, w. split; [done|]. lia.
Qed.

Lemma exists_unconsumed (l : list wstate) :
  tsum consumed l < length l -> exists i w, l !! i = Some w /\ consumed w = 0.
Proof.
  induction l as [|w l IH]; unfold tsum in *; simpl; [lia|]. intros H.
  destruct (consumed w) as [|n] eqn:E.
  - by exists 0, w.
  - assert (consumed w <= 1) by (destruct w; simpl; lia).
    destruct IH as (i & w' & Hi & Hw); [lia|]. by exists (S i), w'.
Qed.

Lemma exists_running (l : list wstate) :
  forallb terminated l = false -> exists i w, l !! i = Some w /\ terminated w = false.
Proof.
  induction l as [|w l IH]; simpl; [done|].
  destruct (terminated w) eqn:E; simpl.
  - intros H. destruct (IH H) as (i & w' & Hi & Hw). by exists (S i), w'.
  - intros _. by exists 0, w.
Qed.

(** A thread that is inside the loop body can take a step, or the thread
    that holds the lock it waits for can. *)
Lemma busy_thread_steps cfg log0 s i w :
  reachable cfg log0 s -> threads s !! i = Some w ->
  0 < thread_rem w ->
  exists e s', step cfg e s = Some s'.
Proof.
  intros Hr Hi Hw. destruct w; simpl in Hw; try lia.
  - exists (EPost i call_ok). eexists. simpl. unfold post_step. by rewrite Hi.
  - destruct (file_lock s) as [j|] eqn:Hl.
    + destruct (proj1 (lock_iff _ _ _ j Hr) Hl) as [r' Hj].
      exists (EWrite j true). eexists. simpl. unfold write_step. by rewrite Hj.
    + exists (EWorker i). eexists. simpl. unfold worker_step. by rewrite Hi, Hl.
  - exists (EWrite i true). eexists. simpl. unfold write_step. by rewrite Hi.
  - exists (EWorker i). eexists. simpl. unfold worker_step. by rewrite Hi.
  - exists (EWorker i). eexists. simpl. unfold worker_step. by rewrite Hi.
  - exists (EWorker i). eexists. simpl. unfold worker_step. by rewrite Hi.
Qed.

(** No deadlock.  When the prompt file is there, the pool is not empty
    (or there is no prompt) and no thread was lost to a failed write, a
    state of the run is the end of the process with status 0 or has a
    step to take: the main thread is never left waiting in [join] for
    work that no thread will do, and no thread waits for an entry that
    will not come while the process should end. *)
Theorem no_deadlock cfg log0 lines s :
  prompt_file cfg = Some lines ->
  load_prompts lines = [] \/ 1 <= max_threads cfg ->
  reachable cfg log0 s ->
  WDied ∉ threads s ->
  exit_code s = Some 0 \/ exists e s', step cfg e s = Some s'.
Proof.
  intros Hf Hw Hr Hd.
  assert (pc s = MOpen \/ pc s <> MOpen) as [Ho|Ho]
    by (destruct (pc s); auto; right; done).
  { right. exists EMain. eexists. simpl. unfold main_step. by rewrite Ho, Hf. }
  pose proof (reachable_inv _ _ _ _ Hf Hr Ho) as Hinv.
  destruct Hinv as [Hp [_ Hpc2] Hunf Hlock Hthr Hmark _ Hitems Hjoin].
  assert (forall i w, threads s !! i = Some w -> pending w = 1 ->
            exists e s', step cfg e s = Some s') as Hbusy.
  { intros i w Hi Hpw. apply (busy_thread_steps cfg log0 s i w Hr Hi).
    destruct w; simpl in *; try lia.
    exfalso. apply Hd. by eapply list_elem_of_lookup_2. }
  destruct (pc s) as [| |[|k]|[|p rest]|[|k]| | | |] eqn:Hpc; try done.
  1-7: right; exists EMain; eexists; simpl; unfold main_step; by rewrite Hpc.
  - (* waiting in join *)
    destruct (unfinished_tasks s) as [|u] eqn:Hu.
    { right. exists EMain. eexists. simpl. unfold main_step. by rewrite Hpc, Hu. }
    right. destruct (tsum pending (threads s)) as [|n] eqn:Hpe.
    + destruct (reachable_fifo _ _ _ Hr) as (xs & m & Hq & Hc).
      simpl in Hthr, Hmark.
      assert (tsum consumed (threads s) < length (threads s)) as Hlt.
      { destruct (proj1 (consumed_all (threads s))) as [|]; [|lia].
        exfalso. rewrite Hq, nones_shape in Hmark.
        assert (m = 0) as -> by lia.
        destruct xs as [|x xs]; [rewrite Hq in Hunf; simpl in Hunf; lia|].
        assert (tsum consumed (threads s) = 0) as Hz by (by apply Hc).
        destruct (Hitems ltac:(done)) as (lost & _ & Hperm).
        apply Permutation_length in Hperm.
        rewrite Hq, somes_shape, !length_app in Hperm. simpl in Hperm.
        destruct Hw as [E|E]; [rewrite E in Hperm; simpl in Hperm; lia|lia]. }
      destruct (exists_unconsumed _ Hlt) as (i & w & Hi & Hcw).
      pose proof (tsum_zero pending _ _ Hpe (list_elem_of_lookup_2 _ _ _ Hi)) as Hpw.
      destruct w; simpl in *; try done.
      exists (EWorker i). simpl. unfold worker_step. rewrite Hi.
      destruct (queue s) as [|[x|] q]; [simpl in Hunf; lia|eauto..].
    + destruct (exists_positive pending (threads s)) as (i & w & Hi & Hpw); [lia|].
      apply (Hbusy i w Hi). destruct w; simpl in *; lia.
  - (* about to print *)
    right. exists EMain. eexists. simpl. unfold main_step. by rewrite Hpc.
  - (* main has returned *)
    destruct (forallb terminated (threads s)) eqn:Ht.
    { left. unfold exit_code. by rewrite Ht, Hpc. }
    right. destruct (exists_running _ Ht) as (i & w & Hi & Hw').
    apply (busy_thread_steps cfg log0 s i w Hr Hi).
    specialize (Hjoin (or_intror eq_refl)).
    assert (tsum pending (threads s) = 0) as Hz by lia.
    pose proof (tsum_zero pending _ _ Hz (list_elem_of_lookup_2 _ _ _ Hi)) as Hpw.
    assert (nones (queue s) = 0) as Hn
      by (destruct (queue s); [done|simpl in *; lia]).
    simpl in Hthr, Hmark.
    assert (tsum consumed (threads s) = length (threads s)) as Hc by lia.
    pose proof (proj2 (consumed_all _) Hc w (list_elem_of_lookup_2 _ _ _ Hi)) as Hcw.
    destruct w; simpl in *; try done; lia.
Qed.

Lemma no_deadlock_witness :
  exit_code final_two = Some 0 \/ exists e s', step cfg_two e final_two = Some s'.
Proof.
  apply (no_deadlock cfg_two old_log lines_two final_two).
  - reflexivity.
  - right. vm_compute. lia.
  - exists run_two. exact final_two_reachable.
  - vm_compute. intros H.
    repeat (apply elem_of_cons in H as [H|H]; [discriminate|]).
    by apply elem_of_nil in H.
Defined.

(** ** What is printed, and the order of the records of a single worker *)

Lemma stdout_by_pc cfg log0 s :
  reachable cfg log0 s ->
  stdout s = match pc s with
             | MReturned => [completed_message (length (prompts s))]
             | _ => []
             end.
Proof.
  revert s. apply reachable_ind; [done|]. intros e s0 s' _ IH Hs.
  destruct e as [|i|i c|i ok]; simpl in Hs.
  - unfold main_step in Hs.
    destruct (pc s0) as [| |[|k]|[|p rest]|[|k]| | | |] eqn:Hpc; try done.
    1: destruct (prompt_file cfg).
    10: destruct (unfinished_tasks s0); [|done].
    all: inversion Hs; subst s'; simpl; try done.
    by rewrite IH.
  - unfold worker_step, task_done in Hs.
    destruct (threads s0 !! i) as [[]|]; try done.
    + destruct (queue s0) as [|[p|] q]; inversion Hs; subst s'; simpl; done.
    + destruct (file_lock s0); inversion Hs; subst s'; simpl; done.
    + destruct (unfinished_tasks s0); inversion Hs; subst s'; simpl; done.
    + destruct (unfinished_tasks s0); inversion Hs; subst s'; simpl; done.
    + inversion Hs; subst s'; simpl; done.
  - unfold post_step in Hs. destruct (threads s0 !! i) as [[]|]; try done.
    inversion Hs; subst s'; simpl; done.
  - unfold write_step in Hs. destruct (threads s0 !! i) as [[]|]; try done.
    destruct ok; inversion Hs; subst s'; simpl; done.
Qed.

(** When the process has ended with status 0 it has printed one line, and
    the number in it is the number of records in the file. *)
Theorem printed_count_is_record_count cfg log0 lines s :
  prompt_file cfg = Some lines ->
  reachable cfg log0 s ->
  exit_code s = Some 0 ->
  stdout s = [completed_message (length (outfile s))]
  /\ length (outfile s) = length (load_prompts lines).
Proof.
  intros Hf Hr He.
  assert (pc s = MReturned) as Hpc.
  { unfold exit_code in He. destruct (forallb _ _); [|done]. by destruct (pc s). }
  assert (joined (pc s) = true) as Hj by (by rewrite Hpc).
  pose proof (joined_log_length _ _ _ _ Hf Hr Hj) as Hlen.
  assert (pc s <> MOpen) as Hne by (by rewrite Hpc).
  pose proof (inv_prompts _ _ _ _ (reachable_inv _ _ _ _ Hf Hr Hne)) as Hp.
  split; [|done]. rewrite (stdout_by_pc _ _ _ Hr), Hpc, Hp, Hlen. done.
Qed.

Lemma printed_count_is_record_count_witness :
  stdout final_two = [completed_message (length (outfile final_two))]
  /\ length (outfile final_two) = length (load_prompts lines_two).
Proof.
  apply (printed_count_is_record_count cfg_two old_log lines_two final_two).
  - reflexivity.
  - exists run_two. exact final_two_reachable.
  - vm_compute. reflexivity.
Defined.

Lemma single_thread (l : list wstate) i w :
  length l <= 1 -> l !! i = Some w -> l = [w] /\ i = 0.
Proof.
  destruct l as [|w0 [|w1 l]]; simpl; intros Hl Hi; try lia.
  - by rewrite lookup_nil in Hi.
  - destruct i as [|i]; simpl in Hi; [by inversion Hi|by rewrite lookup_nil in Hi].
Qed.

(** With a pool of one thread the prompts go through the queue, the
    worker and the file in the order of the prompt file. *)
Lemma single_worker_order cfg log0 lines s :
  prompt_file cfg = Some lines -> max_threads cfg <= 1 ->
  reachable cfg log0 s ->
  pc s <> MOpen -> pc s <> MClear -> tsum died (threads s) = 0 ->
  (prompt <$> outfile s) ++ (threads s ≫= held) ++ somes (queue s)
    ++ todo (load_prompts lines) (pc s) = load_prompts lines.
Proof.
  intros Hf Hc Hr. pattern s. revert s Hr. apply reachable_ind; [done|].
  cbv beta. intros e s0 s' Hr IH Hs Ho' Hc' Hd'.
  assert (pc s0 = MOpen \/ pc s0 <> MOpen) as [Ho|Ho]
    by (destruct (pc s0); auto; right; done).
  { destruct (run_inv_reachable _ _ _ Hr) as [->|[[_ ->]|(l' & _ & Hinv)]];
      [|done|by destruct (inv_pc _ _ _ _ Hinv)].
    destruct e; simpl in Hs; try done.
    unfold main_step in Hs. simpl in Hs. rewrite Hf in Hs.
    inversion Hs; subst s'. done. }
  pose proof (reachable_inv _ _ _ _ Hf Hr Ho) as Hinv.
  destruct Hinv as [Hp [_ Hpc2] Hunf _ Hthr _ Hclr _ _].
  assert (length (threads s0) <= 1) as Hone by lia.
  destruct e as [|i|i c|i ok]; simpl in Hs.
  - unfold main_step in Hs.
    destruct (pc s0) as [| |[|k]|[|p rest]|[|k]| | | |] eqn:Hpc; try done.
    8: destruct (unfinished_tasks s0); [|done].
    all: inversion Hs; subst s'; clear Hs; simpl in *.
    + destruct (Hclr eq_refl) as [_ Hq]. rewrite Hq.
      destruct (threads s0); [done|simpl in Hthr; lia].
    + rewrite Hp. by apply IH.
    + rewrite tsum_snoc in Hd'. simpl in Hd'.
      rewrite bind_app. simpl. rewrite app_nil_r.
      apply IH; [done|done|lia].
    + by apply IH.
    + rewrite somes_snoc, <- !app_assoc. simpl. by apply IH.
    + by apply IH.
    + rewrite somes_snoc, app_nil_r. by apply IH.
    + by apply IH.
    + by apply IH.
  - unfold worker_step, task_done in Hs.
    destruct (threads s0 !! i) as [w|] eqn:Hi; [|done].
    destruct (single_thread _ _ _ Hone Hi) as [Ht ->].
    rewrite Ht in IH. specialize (IH Ho).
    destruct w; try done.
    + destruct (queue s0) as [|[p|] q]; inversion Hs; subst s'; clear Hs;
        simpl in *; rewrite Ht in *; simpl in *; by apply IH.
    + destruct (file_lock s0); inversion Hs; subst s'; clear Hs;
        simpl in *; rewrite Ht in *; simpl in *; by apply IH.
    + destruct (unfinished_tasks s0); inversion Hs; subst s'; clear Hs;
        simpl in *; rewrite Ht in *; simpl in *;
        [unfold tsum in Hd'; simpl in Hd'; lia|by apply IH].
    + destruct (unfinished_tasks s0); inversion Hs; subst s'; clear Hs;
        simpl in *; rewrite Ht in *; simpl in *;
        [unfold tsum in Hd'; simpl in Hd'; lia|by apply IH].
    + inversion Hs; subst s'; clear Hs; simpl in *; rewrite Ht in *; simpl in *;
        by apply IH.
  - unfold post_step in Hs.
    destruct (threads s0 !! i) as [w|] eqn:Hi; [|done].
    destruct (single_thread _ _ _ Hone Hi) as [Ht ->].
    rewrite Ht in IH. specialize (IH Ho).
    destruct w; try done. inversion Hs; subst s'; clear Hs; simpl in *.
    rewrite Ht in *; simpl in *.
    rewrite prompt_send_prompt_result. by apply IH.
  - unfold write_step in Hs.
    destruct (threads s0 !! i) as [w|] eqn:Hi; [|done].
    destruct (single_thread _ _ _ Hone Hi) as [Ht ->].
    rewrite Ht in IH. specialize (IH Ho).
    destruct w; try done.
    destruct ok; inversion Hs; subst s'; clear Hs; simpl in *;
      rewrite Ht in *; simpl in *.
    + rewrite fmap_app, <- app_assoc. simpl. by apply IH.
    + unfold tsum in Hd'. simpl in Hd'. lia.
Qed.

(** With [MAX_THREADS] = 1 (or 0) the records of a completed run stand in
    the file in the order of the prompts in the prompt file. *)
Theorem single_worker_keeps_order cfg log0 lines s :
  prompt_file cfg = Some lines ->
  max_threads cfg <= 1 ->
  reachable cfg log0 s ->
  joined (pc s) = true ->
  prompt <$> outfile s = load_prompts lines.
Proof.
  intros Hf Hc Hr Hj.
  assert (pc s <> MOpen) as Hne by (by destruct (pc s)).
  assert (pc s <> MClear) as Hcl by (by destruct (pc s)).
  destruct (reachable_inv _ _ _ _ Hf Hr Hne) as [_ _ Hunf _ _ _ _ _ Hjoin].
  specialize (Hjoin (joined_pc _ Hj)).
  assert (tsum pending (threads s) = 0) as Hz by lia.
  pose proof (died_le_pending (threads s)) as Hd.
  pose proof (single_worker_order _ _ _ _ Hf Hc Hr Hne Hcl ltac:(lia)) as H.
  rewrite (held_nil _ Hz), somes_length in H by lia.
  assert (todo (load_prompts lines) (pc s) = []) as Ht by (by destruct (pc s)).
  rewrite Ht in H. simpl in H. by rewrite !app_nil_r in H.
Qed.

(** ** The queue and the file while the run goes on *)

(** A thread takes a marker, and so leaves its loop, only when no prompt
    is left to be taken: none waits in the queue and none is still to be
    put on it. *)
Theorem worker_stops_only_when_drained cfg log0 lines s i w :
  prompt_file cfg = Some lines ->
  reachable cfg log0 s ->
  threads s !! i = Some w -> consumed w = 1 ->
  somes (queue s) = [] /\ todo (load_prompts lines) (pc s) = [].
Proof.
  intros Hf Hr Hi Hw.
  pose proof (tsum_lookup consumed _ _ _ Hi) as Hle.
  destruct (reachable_fifo _ _ _ Hr) as (xs & m & Hq & Hc).
  split.
  - rewrite Hq, somes_shape. destruct xs as [|x xs]; [done|].
    assert (tsum consumed (threads s) = 0) by (by apply Hc). lia.
  - destruct (run_inv_reachable _ _ _ Hr) as [->|[[_ ->]|(lines' & Hf' & Hinv)]];
      try (simpl in Hi; by rewrite lookup_nil in Hi).
    pose proof (inv_markers _ _ _ _ Hinv) as Hm.
    destruct (pc s); simpl in *; try done; lia.
Qed.

Lemma worker_stops_only_when_drained_witness :
  somes (queue joined_one) = [] /\ todo (load_prompts ["hello"]) (pc joined_one) = [].
Proof.
  apply (worker_stops_only_when_drained cfg_one [] ["hello"] joined_one 0 WBreak).
  - reflexivity.
  - exists run_join_early. exact joined_one_reachable.
  - reflexivity.
  - reflexivity.
Defined.

(** The counter of the queue is kept right: at every moment
    [unfinished_tasks] is the number of entries in the queue plus the
    number of threads that took an entry and have not called [task_done]
    for it. *)
Theorem unfinished_tasks_accounting cfg log0 s :
  reachable cfg log0 s ->
  unfinished_tasks s = length (queue s) + tsum pending (threads s).
Proof.
  intros Hr.
  destruct (run_inv_reachable _ _ _ Hr) as [->|[[_ ->]|(lines & _ & Hinv)]];
    [done|done|].
  apply (inv_unfinished _ _ _ _ Hinv).
Qed.

Lemma unfinished_tasks_accounting_witness :
  unfinished_tasks writing_one
  = length (queue writing_one) + tsum pending (threads writing_one).
Proof.
  apply (unfinished_tasks_accounting cfg_one []).
  exists run_to_write. exact writing_one_reachable.
Defined.

(** At every moment after the file was cleared, not only at the end, its
    records belong to prompts of the prompt file, each prompt at most as
    often as it was given: a run that is cut short leaves a part of the
    result and nothing else. *)
Theorem log_is_part_of_the_result cfg log0 lines s :
  prompt_file cfg = Some lines ->
  reachable cfg log0 s ->
  cleared (pc s) = true ->
  prompt <$> outfile s ⊆+ load_prompts lines.
Proof.
  intros Hf Hr Hc.
  assert (pc s <> MOpen) as Hne by (by destruct (pc s)).
  assert (pc s <> MClear) as Hcl by (by destruct (pc s)).
  destruct (inv_items _ _ _ _ (reachable_inv _ _ _ _ Hf Hr Hne) Hcl)
    as (lost & _ & Hperm).
  rewrite <- Hperm. apply submseteq_inserts_r. done.
Qed.

Lemma log_is_part_of_the_result_witness :
  prompt <$> outfile writing_one ⊆+ load_prompts ["hello"].
Proof.
  apply (log_is_part_of_the_result cfg_one [] ["hello"] writing_one).
  - reflexivity.
  - exists run_to_write. exact writing_one_reachable.
  - reflexivity.
Defined.

Lemma final_single_reachable :
  exec cfg_single run_single (init old_log) = Some final_single.
Proof. vm_compute. reflexivity. Defined.

Lemma single_worker_keeps_order_witness :
  prompt <$> outfile final_single = load_prompts lines_two.
Proof.
  apply (single_worker_keeps_order cfg_single old_log lines_two final_single).
  - reflexivity.
  - vm_compute. lia.
  - exists run_single. exact final_single_reachable.
  - reflexivity.
Defined.

Lemma run_can_complete_witness :
  exists s, exec cfg_single (one_by_one call_500 (load_prompts lines_two)
                               (Nat.min (max_threads cfg_single)
                                        (length (load_prompts lines_two))))
                 (init old_log) = Some s
    /\ pc s = MReturned
    /\ exit_code s = Some 0
    /\ outfile s = (fun p => send_prompt_result p call_500) <$> load_prompts lines_two.
Proof.
  apply (run_can_complete cfg_single old_log lines_two call_500).
  - reflexivity.
  - right. vm_compute. lia.
Defined.

End ProgressFacts.

Module TimeFacts.

Lemma width_ok_2 : width_ok 2 100 = true.
Proof. vm_compute. reflexivity. Qed.

Lemma width_ok_4 : width_ok 4 (100 * 100) = true.
Proof. vm_compute. reflexivity. Qed.

Lemma length_append (s1 s2 : string) :
  String.length (s1 ++ s2) = String.length s1 + String.length s2.
Proof. induction s1 as [|a s1 IH]; simpl; [done|]. by rewrite IH. Qed.

Lemma zero_pad_width width bound n :
  width_ok width bound = true -> n < bound -> String.length (zero_pad width n) = width.
Proof.
  unfold width_ok. intros H Hn. rewrite forallb_forall in H.
  apply Nat.eqb_eq. apply H. apply in_seq. lia.
Qed.

(** A time stamp of a date with a year of four digits has the nineteen
    characters of [YYYY-MM-DD HH:MM:SS]. *)
Theorem strftime_length dt :
  well_formed dt -> String.length (strftime dt) = 19.
Proof.
  intros (Hy & Hmo & Hd & Hh & Hmi & Hs). unfold strftime.
  rewrite !length_append.
  rewrite (zero_pad_width 4 (100 * 100) (year dt) width_ok_4) by lia.
  rewrite !(zero_pad_width 2 100 _ width_ok_2) by lia.
  reflexivity.
Qed.

Lemma strftime_length_witness : String.length (strftime Samples.noon) = 19.
Proof.
  apply (strftime_length Samples.noon). unfold well_formed. simpl. lia.
Defined.

End TimeFacts.
